(** * Obscuration of the solar disk by the Moon: a model of [SATeclipse_calc.py]

    The Python module computes, for an observer and a time (or a series of
    them), the fraction of the solar disk covered by the lunar disk.  Its
    numeric kernel is the area of intersection of two circles
    ([raw_area], [area_intersect]); [apparent_size] turns a physical radius
    and a distance into an angular radius; [calculate_obscuration] puts the
    pieces together, with the positions of Sun and Moon supplied by astropy.

    The embedding follows the source function by function.

    - One-dimensional numpy arrays are lists; the shape of an array is its
      length.  Broadcasting, boolean-mask reads ([a[mask]]) and boolean-mask
      stores ([a[mask] = v]) are written out with the errors numpy raises on
      a shape mismatch, and with the one mismatch it lets through, a mask of
      length 0.
    - A Python call either returns or raises: [outcome].
    - Numbers are kept abstract behind the interface [Arith], which lists
      the operations the source applies to float64 values.  The interface
      has two instances: [xreal], the extended reals with a NaN, where every
      operation is exact (IEEE 754 arithmetic without rounding and without
      signed zeros), and [binary64], the machine numbers themselves, with
      round-to-nearest-even results for [+ - * / sqrt] and [arccos] left as a
      parameter (numpy takes it from the platform's libm).  Arguments given
      as Python integers, which numpy keeps as int64 arrays with their
      wrap-around, have no instance.
    - The ephemeris (astropy's [get_sun], [get_moon], [AltAz]) is a parameter
      of the orchestrator, which answers for every time and place: the
      checks astropy makes on its own arguments, such as the range of a
      latitude, are not part of the model.  The one failure of astropy that
      is kept is that of [Time(date_time)] on an empty array, a
      [ValueError].  [lat], [lon] and [height] are numbers or
      sequences of numbers: a call that leaves [lat] or [lon] at the default
      [None] is not covered.  The [loc] argument is taken at its default
      [None] and the optional plot, which only reads the computed values, is
      left out. *)

From Stdlib Require Import Floats ZArith List Bool Lia Lra Reals.
Import ListNotations.



(** ** Outcome of a call *)

Inductive exn : Type :=
| IndexError
| ValueError.

Inductive outcome (A : Type) : Type :=
| Return (a : A)
| Raise (e : exn).

Arguments Return {A} a.
Arguments Raise {A} e.

Definition bind {A B : Type} (m : outcome A) (k : A -> outcome B) : outcome B :=
  match m with
  | Return a => k a
  | Raise e => Raise e
  end.

Notation "x <- m ;; k" := (bind m (fun x => k))
  (at level 61, m at next level, right associativity).

(** The call fails, with whatever exception. *)
Definition raises {A : Type} (m : outcome A) : Prop := exists e, m = Raise e.

(** ** Arrays *)

(** What a caller may pass where the source says "scalar or array". *)
Inductive pyval (A : Type) : Type :=
| Scalar (x : A)
| Seq (l : list A).

Arguments Scalar {A} x.
Arguments Seq {A} l.

(** [array(val)]: [np.array(val)], a 0-d result reshaped to [(1,)]. *)
Definition array {A : Type} (val : pyval A) : list A :=
  match val with
  | Scalar x => [x]
  | Seq l => l
  end.

Fixpoint zip_with {A B C : Type} (f : A -> B -> C) (xs : list A) (ys : list B) : list C :=
  match xs, ys with
  | x :: xs', y :: ys' => f x y :: zip_with f xs' ys'
  | _, _ => []
  end.

(** An element-wise binary operation under numpy's broadcasting rule for
    one-dimensional operands: equal lengths pair up, a length-1 operand is
    stretched, anything else is a [ValueError]. *)
Definition broadcast {A B C : Type} (f : A -> B -> C) (xs : list A) (ys : list B)
  : outcome (list C) :=
  if Nat.eqb (length xs) (length ys) then Return (zip_with f xs ys)
  else match xs, ys with
       | [x], _ => Return (map (f x) ys)
       | _, [y] => Return (map (fun x => f x y) xs)
       | _, _ => Raise ValueError
       end.

(** Three operands: the shape of [f(x, y, z)] computed operation by
    operation. *)
Definition broadcast3 {A B C D : Type} (f : A -> B -> C -> D)
  (xs : list A) (ys : list B) (zs : list C) : outcome (list D) :=
  g <- broadcast f xs ys ;;
  broadcast (fun h z => h z) g zs.

Fixpoint compress {A : Type} (mask : list bool) (xs : list A) : list A :=
  match mask, xs with
  | b :: mask', x :: xs' => if b then x :: compress mask' xs' else compress mask' xs'
  | _, _ => []
  end.

(** [xs[mask]].  A mask of another length than the array is an
    [IndexError], except for a mask of length 0, which numpy lets through
    on an array of any length: it selects nothing. *)
Definition getmask {A : Type} (xs : list A) (mask : list bool) : outcome (list A) :=
  if Nat.eqb (length mask) (length xs) then Return (compress mask xs)
  else match mask with
       | [] => Return []
       | _ :: _ => Raise IndexError
       end.

Fixpoint fill {A : Type} (mask : list bool) (xs : list A) (v : A) : list A :=
  match mask, xs with
  | b :: mask', x :: xs' => (if b then v else x) :: fill mask' xs' v
  | _, _ => xs
  end.

Fixpoint scatter {A : Type} (mask : list bool) (xs vals : list A) : list A :=
  match mask, xs with
  | true :: mask', x :: xs' =>
      match vals with
      | v :: vals' => v :: scatter mask' xs' vals'
      | [] => x :: scatter mask' xs' []
      end
  | false :: mask', x :: xs' => x :: scatter mask' xs' vals
  | _, _ => xs
  end.

(** [xs[mask] = v] for a scalar [v]; a mask of length 0 on a longer
    array stores nothing. *)
Definition setmask_scalar {A : Type} (xs : list A) (mask : list bool) (v : A)
  : outcome (list A) :=
  if Nat.eqb (length mask) (length xs) then Return (fill mask xs v)
  else match mask with
       | [] => Return xs
       | _ :: _ => Raise IndexError
       end.

(** [xs[mask] = vals] for an array [vals]: as many values as the mask has
    [True]s, or a single value for all of them.  A mask of length 0 on a
    longer array selects no place, and no or one value can be stored
    there. *)
Definition setmask {A : Type} (xs : list A) (mask : list bool) (vals : list A)
  : outcome (list A) :=
  if Nat.eqb (length mask) (length xs) then
    if Nat.eqb (length vals) (length (compress mask xs)) then Return (scatter mask xs vals)
    else match vals with
         | [v] => Return (fill mask xs v)
         | _ => Raise ValueError
         end
  else match mask with
       | [] => match vals with
               | [] | [_] => Return xs
               | _ => Raise ValueError
               end
       | _ :: _ => Raise IndexError
       end.

(** [np.logical_or.reduce((a, b, c))]: the three masks are stacked, which
    needs equal shapes, and reduced along the new axis. *)
Definition logical_or_reduce (a b c : list bool) : outcome (list bool) :=
  if Nat.eqb (length a) (length b) && Nat.eqb (length b) (length c)
  then Return (zip_with orb (zip_with orb a b) c)
  else Raise ValueError.

(** ** The arithmetic the source relies on *)

Class Arith (F : Type) : Type := {
  of_Z : Z -> F;
  np_pi : F;
  np_nan : F;
  fadd : F -> F -> F;
  fsub : F -> F -> F;
  fmul : F -> F -> F;
  fdiv : F -> F -> F;
  fneg : F -> F;
  np_abs : F -> F;
  np_sqrt : F -> F;
  np_arccos : F -> F;
  fle : F -> F -> bool;
  flt : F -> F -> bool
}.

Declare Scope arith_scope.
Delimit Scope arith_scope with ar.
Infix "+" := fadd : arith_scope.
Infix "-" := fsub : arith_scope.
Infix "*" := fmul : arith_scope.
Infix "/" := fdiv : arith_scope.
Notation "- x" := (fneg x) : arith_scope.
Infix "<=?" := fle : arith_scope.
Infix "<?" := flt : arith_scope.

Section Kernel.

Context {F : Type} {AF : Arith F}.
Local Open Scope arith_scope.

Definition zero : F := of_Z 0.
Definition one : F := of_Z 1.
Definition two : F := of_Z 2.
(** The literal [0.5]. *)
Definition half : F := of_Z 1 / of_Z 2.
(** [x**2] *)
Definition sq (x : F) : F := x * x.
(** [x > y] *)
Definition gtb (x y : F) : bool := y <? x.

(** [conform(arr_0, arr_1)]: [arr_0] when the shapes agree, otherwise
    [np.ones(arr_1.shape) * arr_0[0]]. *)
Definition conform {B : Type} (arr_0 : list F) (arr_1 : list B) : outcome (list F) :=
  if Nat.eqb (length arr_0) (length arr_1) then Return arr_0
  else match arr_0 with
       | [] => Raise IndexError
       | x :: _ => Return (map (fun o => o * x) (repeat one (length arr_1)))
       end.

(** The two quotients handed to [np.arccos] and the product under
    [np.sqrt], named after their place in the formula. *)
Definition acos_arg_moon (R r d : F) : F := (sq d + sq r - sq R) / (two * d * r).
Definition acos_arg_sun (R r d : F) : F := (sq d + sq R - sq r) / (two * d * R).
Definition radicand (R r d : F) : F :=
  (- d + r + R) * (d + r - R) * (d - r + R) * (d + r + R).

(** One element of [raw_area(R, r, d)]. *)
Definition raw_area1 (R r d : F) : F :=
  sq r * np_arccos (acos_arg_moon R r d)
  + sq R * np_arccos (acos_arg_sun R r d)
  - half * np_sqrt (radicand R r d).

Definition raw_area (R r d : list F) : outcome (list F) :=
  broadcast3 raw_area1 R r d.

(** The right-hand sides of the two containment branches. *)
Definition annular_area1 (r_sun r_moon : F) : F :=
  np_pi * sq r_sun - (np_pi * sq r_sun - np_pi * sq r_moon).
Definition total_area1 (r_moon : F) : F := np_pi * sq r_moon.

Definition area_intersect (r_sun r_moon d : pyval F) : outcome (list F) :=
  let r_sun := array r_sun in
  let r_moon := array r_moon in
  let d := array d in
  sum <- broadcast fadd r_sun r_moon ;;
  intersect <- broadcast fle d sum ;;
  diff <- broadcast fsub r_sun r_moon ;;
  inset <- broadcast fle d (map np_abs diff) ;;
  let A := repeat np_nan (length r_sun) in
  let tf_none := map negb intersect in
  A <- setmask_scalar A tf_none zero ;;
  sun_bigger <- broadcast gtb r_sun r_moon ;;
  tf_annular <- broadcast andb inset sun_bigger ;;
  rs <- getmask r_sun tf_annular ;;
  rm <- getmask r_moon tf_annular ;;
  v_annular <- broadcast annular_area1 rs rm ;;
  A <- setmask A tf_annular v_annular ;;
  moon_bigger <- broadcast fle r_sun r_moon ;;
  tf_total <- broadcast andb inset moon_bigger ;;
  rm <- getmask r_moon tf_total ;;
  A <- setmask A tf_total (map total_area1 rm) ;;
  covered <- logical_or_reduce tf_none tf_annular tf_total ;;
  let tf := map negb covered in
  rs <- getmask r_sun tf ;;
  rm <- getmask r_moon tf ;;
  ds <- getmask d tf ;;
  v_partial <- raw_area rs rm ds ;;
  A <- setmask A tf v_partial ;;
  Return A.

(** The four masks of [area_intersect] at one element. *)
Definition tf_none1 (r_sun r_moon d : F) : bool := negb (d <=? r_sun + r_moon).
Definition inset1 (r_sun r_moon d : F) : bool := d <=? np_abs (r_sun - r_moon).
Definition tf_annular1 (r_sun r_moon d : F) : bool :=
  inset1 r_sun r_moon d && gtb r_sun r_moon.
Definition tf_total1 (r_sun r_moon d : F) : bool :=
  inset1 r_sun r_moon d && (r_sun <=? r_moon).
Definition tf_partial1 (r_sun r_moon d : F) : bool :=
  negb (tf_none1 r_sun r_moon d || tf_annular1 r_sun r_moon d || tf_total1 r_sun r_moon d).

(** One element of the result of [area_intersect]: the stores are made
    in the order none, annular, total, partial, and a later store wins. *)
Definition area_intersect1 (r_sun r_moon d : F) : F :=
  if tf_partial1 r_sun r_moon d then raw_area1 r_sun r_moon d
  else if tf_total1 r_sun r_moon d then total_area1 r_moon
  else if tf_annular1 r_sun r_moon d then annular_area1 r_sun r_moon
  else if tf_none1 r_sun r_moon d then zero
  else np_nan.

End Kernel.


(** ** Angular sizes and the orchestrator *)

(** What astropy reports for one time and place: the altitude of the Sun
    (degrees), the distances of Sun and Moon (kilometres, the unit of
    [R_sun] and [R_moon]) and the angular separation of their centres
    (degrees). *)
Record sample (F : Type) : Type := {
  sun_alt : F;
  sun_distance : F;
  moon_distance : F;
  separation : F
}.

(** What [calculate_obscuration] hands back: the obscuration, or with
    [return_dict] the dictionary with keys ['obsc'], ['sun_moon_sep_deg']
    and ['solar_elev_deg']. *)
Inductive result (F : Type) : Type :=
| Obsc (obs : pyval F)
| Dict (obsc : pyval F) (sun_moon_sep_deg solar_elev_deg : list F).

Arguments sun_alt {F} s.
Arguments sun_distance {F} s.
Arguments moon_distance {F} s.
Arguments separation {F} s.
Arguments Obsc {F} obs.
Arguments Dict {F} obsc sun_moon_sep_deg solar_elev_deg.

(** The obscuration, whichever form the result has. *)
Definition obsc_of {F : Type} (res : result F) : pyval F :=
  match res with
  | Obsc obs => obs
  | Dict obs _ _ => obs
  end.

Section Orchestrator.

Context {F : Type} {AF : Arith F}.
Local Open Scope arith_scope.

(** [constants.R_sun] (6.957e8 m) and [1737.1 * u.km], both in km. *)
Definition R_sun : F := of_Z 695700.
Definition R_moon : F := of_Z 17371 / of_Z 10.

(** The two unit conversions: [.to(u.arcmin, u.dimensionless_angles())]
    reads the ratio as radians and scales it to arc minutes;
    [.to(u.degree).value] scales arc minutes to degrees. *)
Definition arcmin_per_radian : F := of_Z 10800 / np_pi.
Definition to_degree (arcmin : F) : F := arcmin / of_Z 60.

(** [apparent_size(R, distance)]: no check of any kind is made on
    [distance]. *)
Definition apparent_size (R : F) (distance : list F) : outcome (list F) :=
  Return (map (fun dist => (R / dist) * arcmin_per_radian) distance).

(** What [conform(arr_0, arr_1)] returns when [arr_0] is not empty and
    [arr_1] has length [n]. *)
Definition conformed (arr_0 : list F) (n : nat) : list F :=
  if Nat.eqb (length arr_0) n then arr_0 else repeat (one * hd np_nan arr_0) n.

(** [Time(date_time)]: astropy makes its time object of the array as it
    is, and refuses an empty one with a [ValueError]. *)
Definition time_aa {T : Type} (date_time : list T) : outcome (list T) :=
  match date_time with
  | [] => Raise ValueError
  | _ :: _ => Return date_time
  end.

Variable Time : Type.
(** The ephemeris for one element of the batch: time, longitude,
    latitude, height. *)
Variable ephemeris : Time -> F -> F -> F -> sample F.

(** astropy's answer for the whole batch, element by element. *)
Definition ephemeris_batch (date_time : list Time) (lon lat height : list F)
  : list (sample F) :=
  zip_with (fun g h => g h)
    (zip_with (fun g la => g la) (zip_with ephemeris date_time lon) lat)
    height.

(** [float(obs)] when [len(obs) == 1]. *)
Definition squeeze (obs : list F) : pyval F :=
  match obs with
  | [x] => Scalar x
  | _ => Seq obs
  end.

Definition calculate_obscuration (date_time : pyval Time) (lat lon height : pyval F)
  (return_dict : bool) (min_solar_elev_deg : F) : outcome (result F) :=
  let date_time := array date_time in
  let lat := array lat in
  let lon := array lon in
  let height := array height in
  lat <- conform lat date_time ;;
  lon <- conform lon date_time ;;
  height <- conform height date_time ;;
  date_time <- time_aa date_time ;;
  let aa := ephemeris_batch date_time lon lat height in
  sunsize <- apparent_size R_sun (map sun_distance aa) ;;
  moonsize <- apparent_size R_moon (map moon_distance aa) ;;
  let r_sun_deg := map to_degree sunsize in
  let r_moon_deg := map to_degree moonsize in
  let sep_deg := map separation aa in
  A <- area_intersect (Seq r_sun_deg) (Seq r_moon_deg) (Seq sep_deg) ;;
  obs <- broadcast fdiv A (map (fun r => np_pi * sq r) r_sun_deg) ;;
  let alt := map sun_alt aa in
  let tf := map (fun a => a <? min_solar_elev_deg) alt in
  obs <- setmask_scalar obs tf zero ;;
  let obs := squeeze obs in
  Return (if return_dict then Dict obs sep_deg alt else Obsc obs).

(** The batch the orchestrator works on. *)
Definition batch_of (date_time : pyval Time) (lat lon height : pyval F) : list (sample F) :=
  let n := length (array date_time) in
  ephemeris_batch (array date_time)
    (conformed (array lon) n) (conformed (array lat) n) (conformed (array height) n).

(** One element of the batch, start to finish. *)
Definition r_sun_deg1 (s : sample F) : F :=
  to_degree (R_sun / sun_distance s * arcmin_per_radian).
Definition r_moon_deg1 (s : sample F) : F :=
  to_degree (R_moon / moon_distance s * arcmin_per_radian).
Definition geometric_obscuration1 (s : sample F) : F :=
  area_intersect1 (r_sun_deg1 s) (r_moon_deg1 s) (separation s)
  / (np_pi * sq (r_sun_deg1 s)).
Definition obscuration1 (min_solar_elev_deg : F) (s : sample F) : F :=
  if sun_alt s <? min_solar_elev_deg then zero else geometric_obscuration1 s.

End Orchestrator.

Arguments ephemeris_batch {F Time} ephemeris date_time lon lat height.
Arguments batch_of {F AF Time} ephemeris date_time lat lon height.
Arguments calculate_obscuration {F AF Time} ephemeris date_time lat lon height
  return_dict min_solar_elev_deg.
(** Triples of corresponding elements, for the element-wise reading of
    the array code. *)
Fixpoint zip3 {A B C : Type} (xs : list A) (ys : list B) (zs : list C) : list (A * B * C) :=
  match xs, ys, zs with
  | x :: xs', y :: ys', z :: zs' => (x, y, z) :: zip3 xs' ys' zs'
  | _, _, _ => []
  end.

Definition map3 {A B C D : Type} (f : A -> B -> C -> D)
  (xs : list A) (ys : list B) (zs : list C) : list D :=
  map (fun t => f (fst (fst t)) (snd (fst t)) (snd t)) (zip3 xs ys zs).


(** ** Exact arithmetic: the extended reals with a NaN *)

Inductive xreal : Type :=
| Fin (x : R)
| PInf
| NInf
| NaN.

Definition Rleb (x y : R) : bool := if Rle_dec x y then true else false.
Definition Rltb (x y : R) : bool := if Rlt_dec x y then true else false.
Definition Reqb (x y : R) : bool := if Req_dec_T x y then true else false.

Definition inf_of (positive : bool) : xreal := if positive then PInf else NInf.

Definition xneg (a : xreal) : xreal :=
  match a with
  | Fin x => Fin (- x)
  | PInf => NInf
  | NInf => PInf
  | NaN => NaN
  end.

Definition xadd (a b : xreal) : xreal :=
  match a, b with
  | Fin x, Fin y => Fin (x + y)
  | NaN, _ | _, NaN => NaN
  | PInf, NInf | NInf, PInf => NaN
  | PInf, _ | _, PInf => PInf
  | NInf, _ | _, NInf => NInf
  end.

Definition xsub (a b : xreal) : xreal := xadd a (xneg b).

Definition xmul (a b : xreal) : xreal :=
  match a, b with
  | Fin x, Fin y => Fin (x * y)
  | NaN, _ | _, NaN => NaN
  | Fin x, PInf | PInf, Fin x => if Reqb x 0 then NaN else inf_of (Rltb 0 x)
  | Fin x, NInf | NInf, Fin x => if Reqb x 0 then NaN else inf_of (Rltb x 0)
  | PInf, PInf | NInf, NInf => PInf
  | PInf, NInf | NInf, PInf => NInf
  end.

(** A zero divisor counts as [+0]. *)
Definition xdiv (a b : xreal) : xreal :=
  match a, b with
  | NaN, _ | _, NaN => NaN
  | Fin x, Fin y =>
      if Reqb y 0 then (if Reqb x 0 then NaN else inf_of (Rltb 0 x)) else Fin (x / y)
  | Fin _, PInf | Fin _, NInf => Fin 0
  | PInf, Fin y => inf_of (Rleb 0 y)
  | NInf, Fin y => inf_of (Rltb y 0)
  | _, _ => NaN
  end.

Definition xabs (a : xreal) : xreal :=
  match a with
  | Fin x => Fin (Rabs x)
  | PInf | NInf => PInf
  | NaN => NaN
  end.

Definition xsqrt (a : xreal) : xreal :=
  match a with
  | Fin x => if Rleb 0 x then Fin (sqrt x) else NaN
  | PInf => PInf
  | NInf | NaN => NaN
  end.

Definition xarccos (a : xreal) : xreal :=
  match a with
  | Fin x => if Rleb (-1) x && Rleb x 1 then Fin (acos x) else NaN
  | _ => NaN
  end.

Definition xle (a b : xreal) : bool :=
  match a, b with
  | NaN, _ | _, NaN => false
  | Fin x, Fin y => Rleb x y
  | NInf, _ | _, PInf => true
  | _, _ => false
  end.

Definition xlt (a b : xreal) : bool :=
  match a, b with
  | NaN, _ | _, NaN => false
  | Fin x, Fin y => Rltb x y
  | PInf, _ | _, NInf => false
  | _, _ => true
  end.

#[export] Instance xreal_arith : Arith xreal := {|
  of_Z z := Fin (IZR z);
  np_pi := Fin PI;
  np_nan := NaN;
  fadd := xadd;
  fsub := xsub;
  fmul := xmul;
  fdiv := xdiv;
  fneg := xneg;
  np_abs := xabs;
  np_sqrt := xsqrt;
  np_arccos := xarccos;
  fle := xle;
  flt := xlt
|}.

(** ** Machine arithmetic: IEEE 754 binary64 *)

Definition b64_of_Z (z : Z) : float :=
  match z with
  | Z0 => PrimFloat.zero
  | Zpos _ => PrimFloat.of_uint63 (Uint63.of_Z z)
  | Zneg p => PrimFloat.opp (PrimFloat.of_uint63 (Uint63.of_Z (Zpos p)))
  end.

(** [np.pi] *)
Definition b64_pi : float := 0x1.921fb54442d18p+1%float.

(** [libm_acos] stands for the platform's [acos]. *)
Definition binary64 (libm_acos : float -> float) : Arith float := {|
  of_Z := b64_of_Z;
  np_pi := b64_pi;
  np_nan := PrimFloat.nan;
  fadd := PrimFloat.add;
  fsub := PrimFloat.sub;
  fmul := PrimFloat.mul;
  fdiv := PrimFloat.div;
  fneg := PrimFloat.opp;
  np_abs := PrimFloat.abs;
  np_sqrt := PrimFloat.sqrt;
  np_arccos := libm_acos;
  fle := PrimFloat.leb;
  flt := PrimFloat.ltb
|}.

(** A decimal literal [n / 10^k] of the source text, as Python reads it:
    the binary64 number nearest to the quotient. *)
Definition b64_decimal (n : Z) (k : nat) : float :=
  PrimFloat.div (b64_of_Z n) (b64_of_Z (10 ^ Z.of_nat k)).

(** ** The geometry over the reals *)

(** The cosine of the half-angle under which the common chord is seen from
    the centre of the circle of radius [a], the other circle having radius
    [b]; Heron's product for the triangle of sides [Rs], [rm], [d]; and the
    area of the lens.  These are the real functions that [acos_arg_moon],
    [acos_arg_sun], [radicand] and [raw_area1] compute on finite values. *)
Definition cosarg (a b d : R) : R := (d * d + a * a - b * b) / (2 * d * a).

Definition heron (Rs rm d : R) : R :=
  (- d + rm + Rs) * (d + rm - Rs) * (d - rm + Rs) * (d + rm + Rs).

Definition lens (Rs rm d : R) : R :=
  rm * rm * acos (cosarg rm Rs d)
  + Rs * Rs * acos (cosarg Rs rm d)
  - 1 / 2 * sqrt (heron Rs rm d).

(** The value [area_intersect] stores for radii [Rs], [rm] and separation
    [d], all non-negative. *)
Definition overlap (Rs rm d : R) : R :=
  if Rlt_dec (Rs + rm) d then 0
  else if Rle_dec d (Rabs (Rs - rm)) then PI * (rm * rm)
  else lens Rs rm d.

(** The angular radii, in degrees, of the Sun seen from [Ds] km and of the
    Moon seen from [Dm] km, as [calculate_obscuration] derives them. *)
Definition sun_deg (Ds : R) : R := 695700 / Ds * (10800 / PI) / 60.
Definition moon_deg (Dm : R) : R := 17371 / 10 / Dm * (10800 / PI) / 60.

(** ** Concrete inputs *)

(** An ephemeris that gives the same answer for every time and place. *)
Definition constant_ephemeris {F : Type} (s : sample F) : nat -> F -> F -> F -> sample F :=
  fun _ _ _ _ => s.

(** Mid-totality: the Sun 45 degrees up at 149 600 000 km, the Moon at
    370 000 km, the two centres aligned. *)
Definition totality_sample : sample xreal := {|
  sun_alt := Fin 45;
  sun_distance := Fin 149600000;
  moon_distance := Fin 370000;
  separation := Fin 0
|}.

(** The same alignment with the Sun 10 degrees below the horizon. *)
Definition night_sample : sample xreal := {|
  sun_alt := Fin (-10);
  sun_distance := Fin 149600000;
  moon_distance := Fin 370000;
  separation := Fin 0
|}.

(** An ephemeris that reports the latitude it was asked about as the
    solar altitude, so that the result shows which latitudes were used. *)
Definition echo_ephemeris : nat -> xreal -> xreal -> xreal -> sample xreal :=
  fun _ _ lat _ => {|
    sun_alt := lat;
    sun_distance := Fin 149600000;
    moon_distance := Fin 370000;
    separation := Fin 0
  |}.

(** An annular phase: the Sun 45 degrees up at 149 600 000 km, the Moon
    at 405 000 km, the centres 0.001 degree apart. *)
Definition annular_sample : sample xreal := {|
  sun_alt := Fin 45;
  sun_distance := Fin 149600000;
  moon_distance := Fin 405000;
  separation := Fin (1 / 1000)
|}.

(** * Element-wise reading of the array code *)

Lemma returned_not_raised {A : Type} (m : outcome A) (a : A) : m = Return a -> ~ raises m.
Proof. intros -> [e He]. discriminate. Qed.

Section ArrayLemmas.

Context {T : Type}.
Variable l : list T.

Lemma zip_with_map {A B C : Type} (f : A -> B -> C) (g : T -> A) (h : T -> B) :
  zip_with f (map g l) (map h l) = map (fun t => f (g t) (h t)) l.
Proof. induction l as [|t l' IH]; simpl; [reflexivity | now rewrite IH]. Qed.

Lemma broadcast_map {A B C : Type} (f : A -> B -> C) (g : T -> A) (h : T -> B) :
  broadcast f (map g l) (map h l) = Return (map (fun t => f (g t) (h t)) l).
Proof.
  unfold broadcast. rewrite !length_map, Nat.eqb_refl. now rewrite zip_with_map.
Qed.

Lemma broadcast3_map {A B C D : Type} (f : A -> B -> C -> D)
  (g : T -> A) (h : T -> B) (k : T -> C) :
  broadcast3 f (map g l) (map h l) (map k l)
  = Return (map (fun t => f (g t) (h t) (k t)) l).
Proof. unfold broadcast3. rewrite broadcast_map. simpl. now rewrite broadcast_map. Qed.

Lemma compress_map {A : Type} (m : T -> bool) (g : T -> A) :
  compress (map m l) (map g l) = map g (filter m l).
Proof.
  induction l as [|t l' IH]; simpl; [reflexivity|].
  destruct (m t); simpl; now rewrite IH.
Qed.

Lemma getmask_map {A : Type} (m : T -> bool) (g : T -> A) :
  getmask (map g l) (map m l) = Return (map g (filter m l)).
Proof. unfold getmask. rewrite !length_map, Nat.eqb_refl. now rewrite compress_map. Qed.

Lemma fill_map {A : Type} (m : T -> bool) (a : T -> A) (v : A) :
  fill (map m l) (map a l) v = map (fun t => if m t then v else a t) l.
Proof. induction l as [|t l' IH]; simpl; [reflexivity | now rewrite IH]. Qed.

Lemma setmask_scalar_map {A : Type} (m : T -> bool) (a : T -> A) (v : A) :
  setmask_scalar (map a l) (map m l) v = Return (map (fun t => if m t then v else a t) l).
Proof. unfold setmask_scalar. rewrite !length_map, Nat.eqb_refl. now rewrite fill_map. Qed.

Lemma scatter_map {A : Type} (m : T -> bool) (a v : T -> A) :
  scatter (map m l) (map a l) (map v (filter m l))
  = map (fun t => if m t then v t else a t) l.
Proof.
  induction l as [|t l' IH]; simpl; [reflexivity|].
  destruct (m t); simpl; now rewrite IH.
Qed.

Lemma setmask_map {A : Type} (m : T -> bool) (a v : T -> A) :
  setmask (map a l) (map m l) (map v (filter m l))
  = Return (map (fun t => if m t then v t else a t) l).
Proof.
  unfold setmask. rewrite !length_map, Nat.eqb_refl, compress_map, !length_map, Nat.eqb_refl.
  now rewrite scatter_map.
Qed.

Lemma repeat_map {A B : Type} (x : A) (g : T -> B) :
  repeat x (length (map g l)) = map (fun _ => x) l.
Proof. rewrite length_map. induction l as [|t l' IH]; simpl; [reflexivity | now rewrite IH]. Qed.

Lemma logical_or_reduce_map (a b c : T -> bool) :
  logical_or_reduce (map a l) (map b l) (map c l)
  = Return (map (fun t => a t || b t || c t) l).
Proof.
  unfold logical_or_reduce. rewrite !length_map, Nat.eqb_refl. simpl.
  now rewrite !zip_with_map.
Qed.

End ArrayLemmas.

Lemma zip3_fst {A B C : Type} (xs : list A) (ys : list B) (zs : list C) :
  length ys = length xs -> length zs = length xs ->
  map (fun t => fst (fst t)) (zip3 xs ys zs) = xs.
Proof.
  revert ys zs. induction xs as [|x xs IH]; intros [|y ys] [|z zs]; simpl; try discriminate;
    intros H1 H2; [reflexivity|]. f_equal. apply IH; congruence.
Qed.

Lemma zip3_snd {A B C : Type} (xs : list A) (ys : list B) (zs : list C) :
  length ys = length xs -> length zs = length xs ->
  map (fun t => snd (fst t)) (zip3 xs ys zs) = ys.
Proof.
  revert ys zs. induction xs as [|x xs IH]; intros [|y ys] [|z zs]; simpl; try discriminate;
    intros H1 H2; [reflexivity|]. f_equal. apply IH; congruence.
Qed.

Lemma zip3_thd {A B C : Type} (xs : list A) (ys : list B) (zs : list C) :
  length ys = length xs -> length zs = length xs ->
  map (fun t => snd t) (zip3 xs ys zs) = zs.
Proof.
  revert ys zs. induction xs as [|x xs IH]; intros [|y ys] [|z zs]; simpl; try discriminate;
    intros H1 H2; [reflexivity|]. f_equal. apply IH; congruence.
Qed.

Lemma zip3_length {A B C : Type} (xs : list A) (ys : list B) (zs : list C) :
  length ys = length xs -> length zs = length xs ->
  length (zip3 xs ys zs) = length xs.
Proof.
  intros H1 H2. rewrite <- (zip3_fst xs ys zs H1 H2) at 2. now rewrite length_map.
Qed.

Section KernelElementwise.

Context {F : Type} {AF : Arith F}.

(** When the three arrays list one quantity each of the same batch [l],
    the array code computes [area_intersect1] at every element. *)
Lemma area_intersect_map {T : Type} (l : list T) (g_sun g_moon g_d : T -> F) :
  area_intersect (Seq (map g_sun l)) (Seq (map g_moon l)) (Seq (map g_d l))
  = Return (map (fun t => area_intersect1 (g_sun t) (g_moon t) (g_d t)) l).
Proof.
  unfold area_intersect, raw_area. cbn [array].
  rewrite broadcast_map. cbn [bind].
  rewrite broadcast_map. cbn [bind].
  rewrite broadcast_map. cbn [bind].
  rewrite map_map, broadcast_map. cbn [bind].
  rewrite repeat_map, map_map, setmask_scalar_map. cbn [bind].
  rewrite broadcast_map. cbn [bind].
  rewrite broadcast_map. cbn [bind].
  rewrite !getmask_map. cbn [bind].
  rewrite broadcast_map. cbn [bind].
  rewrite setmask_map. cbn [bind].
  rewrite broadcast_map. cbn [bind].
  rewrite broadcast_map. cbn [bind].
  rewrite getmask_map. cbn [bind].
  rewrite map_map, setmask_map. cbn [bind].
  rewrite logical_or_reduce_map. cbn [bind].
  rewrite map_map, !getmask_map. cbn [bind].
  rewrite broadcast3_map. cbn [bind].
  rewrite setmask_map. cbn [bind].
  reflexivity.
Qed.

(** The same for three arrays of one length. *)
Lemma area_intersect_elementwise (r_sun r_moon d : list F) :
  length r_moon = length r_sun -> length d = length r_sun ->
  area_intersect (Seq r_sun) (Seq r_moon) (Seq d)
  = Return (map3 area_intersect1 r_sun r_moon d).
Proof.
  intros H1 H2. unfold map3.
  rewrite <- (area_intersect_map (zip3 r_sun r_moon d)
                (fun t => fst (fst t)) (fun t => snd (fst t)) (fun t => snd t)).
  rewrite zip3_fst, zip3_snd, zip3_thd by assumption. reflexivity.
Qed.

Lemma area_intersect_scalar (r_sun r_moon d : F) :
  area_intersect (Scalar r_sun) (Scalar r_moon) (Scalar d)
  = Return [area_intersect1 r_sun r_moon d].
Proof. exact (area_intersect_elementwise [r_sun] [r_moon] [d] eq_refl eq_refl). Qed.

(** Every element is claimed by one of the four masks. *)
Lemma masks_cover (r_sun r_moon d : F) :
  tf_none1 r_sun r_moon d || tf_annular1 r_sun r_moon d
  || tf_total1 r_sun r_moon d || tf_partial1 r_sun r_moon d = true.
Proof.
  unfold tf_partial1.
  destruct (tf_none1 r_sun r_moon d || tf_annular1 r_sun r_moon d || tf_total1 r_sun r_moon d);
    reflexivity.
Qed.

End KernelElementwise.

(** * Element-wise reading of the orchestrator *)

Lemma zip_with_length {A B C : Type} (f : A -> B -> C) (xs : list A) (ys : list B) :
  length ys = length xs -> length (zip_with f xs ys) = length xs.
Proof.
  revert ys. induction xs as [|x xs IH]; intros [|y ys]; simpl; try discriminate;
    intros H; [reflexivity|]. f_equal. apply IH. congruence.
Qed.

Section OrchestratorElementwise.

Context {F : Type} {AF : Arith F}.
Variable Time : Type.
Variable ephemeris : Time -> F -> F -> F -> sample F.

Lemma conformed_length (arr_0 : list F) (n : nat) : length (conformed arr_0 n) = n.
Proof.
  unfold conformed. destruct (Nat.eqb (length arr_0) n) eqn:E.
  - now apply Nat.eqb_eq.
  - apply repeat_length.
Qed.

Lemma conform_nonempty {B : Type} (arr_0 : list F) (arr_1 : list B) :
  arr_0 <> [] -> conform arr_0 arr_1 = Return (conformed arr_0 (length arr_1)).
Proof.
  intros H. unfold conform, conformed.
  destruct (Nat.eqb (length arr_0) (length arr_1)); [reflexivity|].
  destruct arr_0 as [|x arr_0]; [contradiction|]. simpl.
  f_equal. induction (length arr_1) as [|n IH]; simpl; [reflexivity | now rewrite IH].
Qed.

Lemma conform_empty {B : Type} (arr_1 : list B) :
  arr_1 <> [] -> conform (F := F) [] arr_1 = Raise IndexError.
Proof. intros H. destruct arr_1; [contradiction | reflexivity]. Qed.

Lemma ephemeris_batch_length (date_time : list Time) (lon lat height : list F) :
  length lon = length date_time -> length lat = length date_time ->
  length height = length date_time ->
  length (ephemeris_batch ephemeris date_time lon lat height) = length date_time.
Proof.
  intros H1 H2 H3. unfold ephemeris_batch.
  assert (L1 : length (zip_with ephemeris date_time lon) = length date_time)
    by now apply zip_with_length.
  assert (L2 : length (zip_with (fun g la => g la) (zip_with ephemeris date_time lon) lat)
               = length date_time)
    by (rewrite zip_with_length; congruence).
  rewrite zip_with_length; congruence.
Qed.

Lemma array_squeeze (obs : list F) : array (squeeze obs) = obs.
Proof. destruct obs as [|x [|y obs]]; reflexivity. Qed.

Lemma batch_of_length (date_time : pyval Time) (lat lon height : pyval F) :
  length (batch_of ephemeris date_time lat lon height) = length (array date_time).
Proof. apply ephemeris_batch_length; apply conformed_length. Qed.

Lemma time_aa_nonempty (date_time : list Time) :
  date_time <> [] -> time_aa date_time = Return date_time.
Proof. intros H. destruct date_time; [contradiction | reflexivity]. Qed.

(** An empty [date_time] conforms every field to length 0, whatever it
    was, and is then refused by [Time]. *)
Lemma calculate_obscuration_empty
  (date_time : pyval Time) (lat lon height : pyval F)
  (return_dict : bool) (min_solar_elev_deg : F) :
  array date_time = [] ->
  calculate_obscuration ephemeris date_time lat lon height return_dict min_solar_elev_deg
  = Raise ValueError.
Proof.
  intros H. unfold calculate_obscuration. rewrite H. unfold conform. cbn [length repeat map].
  destruct (array lat), (array lon), (array height); reflexivity.
Qed.

(** A non-empty [date_time] and an empty field: [conform] fails on
    [arr_0[0]], for the first empty field it meets. *)
Lemma calculate_obscuration_empty_field
  (date_time : pyval Time) (lat lon height : pyval F)
  (return_dict : bool) (min_solar_elev_deg : F) :
  array date_time <> [] ->
  array lat = [] \/ array lon = [] \/ array height = [] ->
  calculate_obscuration ephemeris date_time lat lon height return_dict min_solar_elev_deg
  = Raise IndexError.
Proof.
  intros Hdt H. unfold calculate_obscuration.
  destruct (array lat) as [|la lat'] eqn:El.
  - now rewrite conform_empty.
  - rewrite (conform_nonempty (la :: lat')) by discriminate. cbn [bind].
    destruct (array lon) as [|lo lon'] eqn:Eo.
    + now rewrite conform_empty.
    + rewrite (conform_nonempty (lo :: lon')) by discriminate. cbn [bind].
      destruct H as [H|[H|H]]; try discriminate.
      rewrite H. now rewrite conform_empty.
Qed.

Lemma calculate_obscuration_elementwise
  (date_time : pyval Time) (lat lon height : pyval F)
  (return_dict : bool) (min_solar_elev_deg : F) :
  array date_time <> [] ->
  array lat <> [] -> array lon <> [] -> array height <> [] ->
  calculate_obscuration ephemeris date_time lat lon height return_dict min_solar_elev_deg
  = Return (let aa := batch_of ephemeris date_time lat lon height in
            let obs := squeeze (map (obscuration1 min_solar_elev_deg) aa) in
            if return_dict then Dict obs (map separation aa) (map sun_alt aa)
            else Obsc obs).
Proof.
  intros Hdt Hlat Hlon Hh. unfold calculate_obscuration, batch_of.
  rewrite !conform_nonempty by assumption. cbn [bind].
  rewrite time_aa_nonempty by assumption. cbn [bind].
  unfold apparent_size. cbn [bind].
  rewrite !map_map, area_intersect_map. cbn [bind].
  rewrite broadcast_map. cbn [bind].
  rewrite setmask_scalar_map. cbn [bind].
  reflexivity.
Qed.

End OrchestratorElementwise.

(** * The lens area as a function of the separation *)

Local Open Scope R_scope.

Lemma heron_sym (a b d : R) : heron a b d = heron b a d.
Proof. unfold heron. ring. Qed.

Lemma cosarg_deriv (a b d : R) : d <> 0 -> a <> 0 ->
  derivable_pt_lim (cosarg a b) d ((d * d - a * a + b * b) / (2 * d * d * a)).
Proof.
  intros Hd Ha.
  assert (pr : derivable_pt (cosarg a b) d) by (unfold cosarg; reg; nra).
  apply (derive_pt_eq_1 _ _ _ pr). unfold cosarg in *. reg; [|nra].
  unfold Rsqr. field. now split.
Qed.

Lemma sqrt_heron_deriv (Rs rm d : R) : 0 < heron Rs rm d ->
  derivable_pt_lim (fun d => sqrt (heron Rs rm d)) d
    ((4 * d * (rm * rm + Rs * Rs) - 4 * d * d * d) / (2 * sqrt (heron Rs rm d))).
Proof.
  intros HP.
  assert (pr : derivable_pt (fun d => sqrt (heron Rs rm d)) d) by (unfold heron in *; reg; nra).
  apply (derive_pt_eq_1 _ _ _ pr). unfold heron in *. reg.
  field. apply Rgt_not_eq, sqrt_lt_R0, HP.
Qed.

Lemma acos_deriv (x : R) : -1 < x < 1 ->
  derivable_pt_lim acos x (-1 / sqrt (1 - x * x)).
Proof.
  intros Hx. change (x * x) with (Rsqr x). rewrite <- (derive_pt_acos x Hx).
  apply (derive_pt_eq_1 _ _ _ (derivable_pt_acos x Hx)). reflexivity.
Qed.

(** 1 - cosarg^2 in terms of Heron's product *)
Lemma one_minus_cosarg_sq (a b d : R) : d <> 0 -> a <> 0 ->
  1 - cosarg a b d * cosarg a b d = heron b a d / ((2 * d * a) * (2 * d * a)).
Proof. intros. unfold cosarg, heron. field. now split. Qed.

Lemma sqrt_one_minus_cosarg_sq (a b d : R) : 0 < d -> 0 < a -> 0 <= heron b a d ->
  sqrt (1 - cosarg a b d * cosarg a b d) = sqrt (heron b a d) / (2 * d * a).
Proof.
  intros Hd Ha HP. rewrite one_minus_cosarg_sq by lra.
  assert (Hda : 0 < 2 * d * a) by (apply Rmult_lt_0_compat; lra).
  rewrite sqrt_div_alt by (apply Rmult_lt_0_compat; lra).
  f_equal. apply sqrt_square. lra.
Qed.

Lemma cosarg_range (a b d : R) : 0 < d -> 0 < a -> 0 < heron b a d ->
  -1 < cosarg a b d < 1.
Proof.
  intros Hd Ha HP.
  assert (H : 0 < 1 - cosarg a b d * cosarg a b d).
  { rewrite one_minus_cosarg_sq by lra.
    assert (Hda : 0 < 2 * d * a) by (apply Rmult_lt_0_compat; lra).
    apply Rdiv_lt_0_compat; [lra | apply Rmult_lt_0_compat; lra]. }
  nra.
Qed.

Lemma lens_deriv (Rs rm d : R) : 0 < Rs -> 0 < rm -> 0 < d -> 0 < heron Rs rm d ->
  derivable_pt_lim (lens Rs rm) d (- sqrt (heron Rs rm d) / d).
Proof.
  intros HR Hr Hd HP.
  assert (HP' : 0 < heron rm Rs d) by now rewrite heron_sym.
  pose proof (cosarg_range rm Rs d Hd Hr HP) as Hx.
  pose proof (cosarg_range Rs rm d Hd HR HP') as Hy.
  pose proof (derivable_pt_lim_comp _ _ _ _ _ (cosarg_deriv rm Rs d ltac:(lra) ltac:(lra))
                (acos_deriv _ Hx)) as D1.
  pose proof (derivable_pt_lim_comp _ _ _ _ _ (cosarg_deriv Rs rm d ltac:(lra) ltac:(lra))
                (acos_deriv _ Hy)) as D2.
  pose proof (sqrt_heron_deriv Rs rm d HP) as D3.
  pose proof (derivable_pt_lim_minus _ _ _ _ _
     (derivable_pt_lim_plus _ _ _ _ _
        (derivable_pt_lim_scal _ (rm * rm) _ _ D1)
        (derivable_pt_lim_scal _ (Rs * Rs) _ _ D2))
     (derivable_pt_lim_scal _ (1 / 2) _ _ D3)) as D.
  rewrite !sqrt_one_minus_cosarg_sq in D by lra.
  rewrite (heron_sym rm Rs d) in D.
  set (s := sqrt (heron Rs rm d)) in *.
  assert (Hs : 0 < s) by (apply sqrt_lt_R0, HP).
  assert (Hss : s * s = heron Rs rm d) by (apply sqrt_sqrt; lra).
  replace (- s / d) with
    (rm * rm * (-1 / (s / (2 * d * rm)) * ((d * d - rm * rm + Rs * Rs) / (2 * d * d * rm)))
     + Rs * Rs * (-1 / (s / (2 * d * Rs)) * ((d * d - Rs * Rs + rm * rm) / (2 * d * d * Rs)))
     - 1 / 2 * ((4 * d * (rm * rm + Rs * Rs) - 4 * d * d * d) / (2 * s))).
  - exact D.
  - apply (Rmult_eq_reg_r (s * d)); [|nra].
    transitivity (- heron Rs rm d); [unfold heron; field; lra|].
    rewrite <- Hss. field. lra.
Qed.

Lemma acos_eq_0_above (x : R) : 1 <= x -> acos x = 0.
Proof. intros H. unfold acos. repeat case Rle_dec; lra. Qed.

Lemma acos_lt_of_cos_lt (x e : R) : -1 <= x <= 1 -> 0 <= e <= PI -> cos e < x -> acos x < e.
Proof.
  intros Hx He Hc. destruct (Rlt_le_dec (acos x) e) as [H|H]; [exact H|exfalso].
  pose proof (acos_bound x) as Hb.
  destruct (Rle_lt_or_eq_dec _ _ H) as [H'|H'].
  - pose proof (cos_decreasing_1 e (acos x) ltac:(lra) ltac:(lra) ltac:(lra) ltac:(lra) H') as Hd.
    rewrite cos_acos in Hd by lra. lra.
  - rewrite H', cos_acos in Hc by lra. lra.
Qed.

Lemma acos_continuous_at_1 : continuity_pt acos 1.
Proof.
  intros eps Heps.
  set (e := Rmin eps 1).
  assert (He : 0 < e <= eps /\ e <= 1).
  { unfold e, Rmin. destruct (Rle_dec eps 1); lra. }
  assert (HPI : 3 < PI) by (pose proof PI_RGT_0; pose proof PI2_3_2; unfold PI2 in *; lra).
  assert (Hc : cos e < 1).
  { rewrite <- cos_0. apply cos_decreasing_1; lra. }
  assert (Hc1 : -1 < cos e).
  { rewrite <- cos_PI. apply cos_decreasing_1; lra. }
  exists (1 - cos e). split; [lra|].
  intros x [_ Hx]. simpl in *. unfold R_dist in *. rewrite acos_1, Rminus_0_r.
  destruct (Rle_lt_dec 1 x) as [H1|H1].
  - rewrite acos_eq_0_above by exact H1. rewrite Rabs_R0. lra.
  - assert (Hlo : cos e < x).
    { rewrite Rabs_left in Hx by lra. lra. }
    pose proof (acos_bound x) as Hb.
    rewrite Rabs_right by lra.
    apply Rlt_le_trans with e; [|lra].
    apply acos_lt_of_cos_lt; lra.
Qed.

Lemma acos_continuous_at_m1 : continuity_pt acos (-1).
Proof.
  apply (continuity_pt_locally_ext (fun x => PI - acos (- x)) acos 1 (-1)); [lra| |].
  - intros y _. rewrite acos_opp. ring.
  - apply (continuity_pt_minus (fun _ => PI) (fun x => acos (- x))).
    + apply continuity_pt_const. intros x y. reflexivity.
    + apply (continuity_pt_comp (fun x => - x) acos).
      * apply (continuity_pt_opp (fun x => x)). apply derivable_continuous_pt, derivable_pt_id.
      * replace (- -1) with 1 by ring. exact acos_continuous_at_1.
Qed.

Lemma acos_continuous (x : R) : -1 <= x <= 1 -> continuity_pt acos x.
Proof.
  intros [H1 H2].
  destruct (Rle_lt_or_eq_dec _ _ H1) as [H1' | <- ]; [|exact acos_continuous_at_m1].
  destruct (Rle_lt_or_eq_dec _ _ H2) as [H2' | -> ]; [|exact acos_continuous_at_1].
  apply derivable_continuous_pt, derivable_pt_acos. lra.
Qed.

Lemma heron_pos (Rs rm d : R) : Rabs (Rs - rm) < d -> d < Rs + rm -> 0 < heron Rs rm d.
Proof.
  intros H1 H2. unfold heron.
  assert (Ha : Rs - rm < d /\ rm - Rs < d).
  { unfold Rabs in H1. destruct (Rcase_abs (Rs - rm)); lra. }
  repeat apply Rmult_lt_0_compat; lra.
Qed.

Lemma heron_nonneg (Rs rm d : R) : Rabs (Rs - rm) <= d -> d <= Rs + rm -> 0 <= heron Rs rm d.
Proof.
  intros H1 H2. unfold heron.
  assert (Ha : Rs - rm <= d /\ rm - Rs <= d).
  { unfold Rabs in H1. destruct (Rcase_abs (Rs - rm)); lra. }
  repeat apply Rmult_le_pos; lra.
Qed.

Lemma cosarg_range_closed (a b d : R) : 0 < d -> 0 < a -> 0 <= heron b a d ->
  -1 <= cosarg a b d <= 1.
Proof.
  intros Hd Ha HP.
  assert (H : 0 <= 1 - cosarg a b d * cosarg a b d).
  { rewrite one_minus_cosarg_sq by lra.
    assert (Hda : 0 < 2 * d * a) by (apply Rmult_lt_0_compat; lra).
    apply Rmult_le_pos; [lra|]. left. apply Rinv_0_lt_compat. apply Rmult_lt_0_compat; lra. }
  nra.
Qed.

Lemma lens_continuous (Rs rm d : R) : 0 < Rs -> 0 < rm -> 0 < d -> 0 <= heron Rs rm d ->
  continuity_pt (lens Rs rm) d.
Proof.
  intros HR Hr Hd HP.
  assert (HP' : 0 <= heron rm Rs d) by now rewrite heron_sym.
  assert (C1 : continuity_pt (fun d => acos (cosarg rm Rs d)) d).
  { apply (continuity_pt_comp (cosarg rm Rs) acos).
    - apply derivable_continuous_pt. eexists. apply cosarg_deriv; lra.
    - apply acos_continuous, cosarg_range_closed; assumption. }
  assert (C2 : continuity_pt (fun d => acos (cosarg Rs rm d)) d).
  { apply (continuity_pt_comp (cosarg Rs rm) acos).
    - apply derivable_continuous_pt. eexists. apply cosarg_deriv; lra.
    - apply acos_continuous, cosarg_range_closed; assumption. }
  assert (C3 : continuity_pt (fun d => sqrt (heron Rs rm d)) d).
  { apply (continuity_pt_comp (heron Rs rm) sqrt).
    - apply derivable_continuous_pt. unfold heron. reg.
    - apply continuity_pt_sqrt, HP. }
  exact (continuity_pt_minus _ _ _
           (continuity_pt_plus _ _ _
              (continuity_pt_scal _ (rm * rm) _ C1)
              (continuity_pt_scal _ (Rs * Rs) _ C2))
           (continuity_pt_scal _ (1 / 2) _ C3)).
Qed.

(** The lens area does not grow when the centres move apart. *)
Lemma lens_decreasing (Rs rm a b : R) :
  0 < Rs -> 0 < rm -> 0 < a -> Rabs (Rs - rm) <= a -> a < b -> b <= Rs + rm ->
  lens Rs rm b <= lens Rs rm a.
Proof.
  intros HR Hr Ha Hlo Hab Hhi.
  assert (Hin : forall c, a < c < b -> 0 < heron Rs rm c).
  { intros c Hc. apply heron_pos; lra. }
  assert (Hpos : forall c, a < c < b -> 0 < c) by (intros; lra).
  set (pr1 := fun c (Hc : a < c < b) =>
                exist (fun l => derivable_pt_abs (lens Rs rm) c l) _
                  (lens_deriv Rs rm c HR Hr (Hpos c Hc) (Hin c Hc))).
  destruct (MVT (lens Rs rm) id a b pr1 (fun c _ => derivable_pt_id c) Hab) as [c [Hc E]].
  - intros c Hc. apply lens_continuous; try lra. apply heron_nonneg; lra.
  - intros c Hc. apply derivable_continuous_pt, derivable_pt_id.
  - unfold pr1 in E. simpl in E. unfold id in E.
    assert (Hs : 0 <= sqrt (heron Rs rm c)) by apply sqrt_pos.
    assert (Hq : 0 <= sqrt (heron Rs rm c) / c).
    { apply Rmult_le_pos; [exact Hs|]. left. apply Rinv_0_lt_compat. lra. }
    replace (- sqrt (heron Rs rm c) / c) with (- (sqrt (heron Rs rm c) / c)) in E by (field; lra).
    change (fun x : R => x) with id in E. rewrite derive_pt_id in E.
    assert (0 <= (b - a) * (sqrt (heron Rs rm c) / c)) by (apply Rmult_le_pos; lra).
    lra.
Qed.

Lemma lens_at_sum (Rs rm : R) : 0 < Rs -> 0 < rm -> lens Rs rm (Rs + rm) = 0.
Proof.
  intros HR Hr. unfold lens.
  replace (cosarg rm Rs (Rs + rm)) with 1 by (unfold cosarg; field; lra).
  replace (cosarg Rs rm (Rs + rm)) with 1 by (unfold cosarg; field; lra).
  replace (heron Rs rm (Rs + rm)) with 0 by (unfold heron; ring).
  rewrite acos_1, sqrt_0. ring.
Qed.

Lemma acos_m1 : acos (-1) = PI.
Proof. replace (-1) with (- (1)) by lra. rewrite acos_opp, acos_1. ring. Qed.

Lemma lens_at_diff_sun (Rs rm : R) : 0 < rm -> rm < Rs -> lens Rs rm (Rs - rm) = PI * (rm * rm).
Proof.
  intros Hr HR. unfold lens.
  replace (cosarg rm Rs (Rs - rm)) with (-1) by (unfold cosarg; field; lra).
  replace (cosarg Rs rm (Rs - rm)) with 1 by (unfold cosarg; field; lra).
  replace (heron Rs rm (Rs - rm)) with 0 by (unfold heron; ring).
  rewrite acos_1, acos_m1, sqrt_0. ring.
Qed.

Lemma lens_at_diff_moon (Rs rm : R) : 0 < Rs -> Rs < rm -> lens Rs rm (rm - Rs) = PI * (Rs * Rs).
Proof.
  intros Hr HR. unfold lens.
  replace (cosarg rm Rs (rm - Rs)) with 1 by (unfold cosarg; field; lra).
  replace (cosarg Rs rm (rm - Rs)) with (-1) by (unfold cosarg; field; lra).
  replace (heron Rs rm (rm - Rs)) with 0 by (unfold heron; ring).
  rewrite acos_1, acos_m1, sqrt_0. ring.
Qed.

Lemma acos_le_half_pi (x : R) : 0 <= x <= 1 -> acos x <= PI / 2.
Proof.
  intros Hx. destruct (Rle_lt_dec (acos x) (PI / 2)) as [H|H]; [exact H|exfalso].
  pose proof (acos_bound x) as Hb. pose proof PI_RGT_0.
  assert (Hc : cos (acos x) < 0) by (apply cos_lt_0; lra).
  rewrite cos_acos in Hc by lra. lra.
Qed.

Lemma lens_equal_radii_le (rm d : R) : 0 < rm -> 0 < d -> d <= rm + rm ->
  lens rm rm d <= PI * (rm * rm).
Proof.
  intros Hr Hd Hhi. unfold lens.
  assert (Hx : 0 <= cosarg rm rm d <= 1).
  { replace (cosarg rm rm d) with (d / (2 * rm)) by (unfold cosarg; field; lra).
    split.
    - apply Rmult_le_pos; [lra|]. left. apply Rinv_0_lt_compat. lra.
    - apply (Rmult_le_reg_r (2 * rm)); [lra|]. unfold Rdiv. rewrite Rmult_assoc, Rinv_l by lra. lra. }
  pose proof (acos_le_half_pi _ Hx) as Ha.
  pose proof (sqrt_pos (heron rm rm d)) as Hs.
  assert (Hrr : 0 < rm * rm) by nra.
  nra.
Qed.

(** Bounds of the lens area over the whole partial-overlap range. *)
Lemma lens_nonneg (Rs rm d : R) :
  0 < Rs -> 0 < rm -> Rabs (Rs - rm) < d -> d <= Rs + rm -> 0 <= lens Rs rm d.
Proof.
  intros HR Hr Hlo Hhi. pose proof (Rabs_pos (Rs - rm)) as Hp.
  destruct (Rle_lt_or_eq_dec _ _ Hhi) as [H| ->].
  - rewrite <- (lens_at_sum Rs rm HR Hr). apply lens_decreasing; lra.
  - rewrite lens_at_sum by assumption. lra.
Qed.

Lemma lens_le_min (Rs rm d : R) :
  0 < Rs -> 0 < rm -> Rabs (Rs - rm) < d -> d <= Rs + rm ->
  lens Rs rm d <= PI * (Rmin Rs rm * Rmin Rs rm).
Proof.
  intros HR Hr Hlo Hhi.
  destruct (Rtotal_order Rs rm) as [H|[H|H]].
  - rewrite Rmin_left by lra. rewrite Rabs_left in Hlo by lra.
    rewrite <- (lens_at_diff_moon Rs rm HR H).
    apply lens_decreasing; try lra. rewrite Rabs_left by lra. lra.
  - subst rm. rewrite Rmin_left by lra.
    apply lens_equal_radii_le; try lra.
    replace (Rs - Rs) with 0 in Hlo by ring. rewrite Rabs_R0 in Hlo. lra.
  - rewrite Rmin_right by lra. rewrite Rabs_right in Hlo by lra.
    rewrite <- (lens_at_diff_sun Rs rm Hr H).
    apply lens_decreasing; try lra. rewrite Rabs_right by lra. lra.
Qed.

(** * The kernel in exact arithmetic *)

Lemma Rleb_true (x y : R) : x <= y -> Rleb x y = true.
Proof. intros H. unfold Rleb. destruct (Rle_dec x y); [reflexivity | contradiction]. Qed.

Lemma Rleb_false (x y : R) : y < x -> Rleb x y = false.
Proof. intros H. unfold Rleb. destruct (Rle_dec x y); [lra | reflexivity]. Qed.

Lemma Rltb_true (x y : R) : x < y -> Rltb x y = true.
Proof. intros H. unfold Rltb. destruct (Rlt_dec x y); [reflexivity | contradiction]. Qed.

Lemma Rltb_false (x y : R) : y <= x -> Rltb x y = false.
Proof. intros H. unfold Rltb. destruct (Rlt_dec x y); [lra | reflexivity]. Qed.


Lemma Reqb_false (x y : R) : x <> y -> Reqb x y = false.
Proof. intros H. unfold Reqb. destruct (Req_dec_T x y); [contradiction | reflexivity]. Qed.

Lemma xdiv_fin (x y : R) : y <> 0 -> xdiv (Fin x) (Fin y) = Fin (x / y).
Proof. intros H. unfold xdiv. now rewrite Reqb_false. Qed.

Lemma xsqrt_fin (x : R) : 0 <= x -> xsqrt (Fin x) = Fin (sqrt x).
Proof. intros H. unfold xsqrt. now rewrite Rleb_true. Qed.

Lemma xarccos_fin (x : R) : -1 <= x <= 1 -> xarccos (Fin x) = Fin (acos x).
Proof. intros [H1 H2]. unfold xarccos. now rewrite !Rleb_true. Qed.

Lemma half_exact : half = Fin (1 / 2).
Proof. unfold half. cbn. apply xdiv_fin. lra. Qed.

(** On finite operands the two quotients and the radicand are the real
    ones, provided the divisor is not zero. *)
Lemma acos_arg_moon_exact (Rs rm d : R) : 0 < d -> 0 < rm ->
  acos_arg_moon (Fin Rs) (Fin rm) (Fin d) = Fin (cosarg rm Rs d).
Proof.
  intros Hd Hr. unfold acos_arg_moon, sq, two, cosarg. cbn.
  apply xdiv_fin. nra.
Qed.

Lemma acos_arg_sun_exact (Rs rm d : R) : 0 < d -> 0 < Rs ->
  acos_arg_sun (Fin Rs) (Fin rm) (Fin d) = Fin (cosarg Rs rm d).
Proof.
  intros Hd Hr. unfold acos_arg_sun, sq, two, cosarg. cbn.
  apply xdiv_fin. nra.
Qed.

Lemma radicand_exact (Rs rm d : R) :
  radicand (Fin Rs) (Fin rm) (Fin d) = Fin (heron Rs rm d).
Proof. reflexivity. Qed.

(** Inside the partial-overlap range both radii are positive. *)
Lemma partial_range_positive (Rs rm d : R) :
  0 <= Rs -> 0 <= rm -> Rabs (Rs - rm) < d -> d <= Rs + rm -> 0 < Rs /\ 0 < rm /\ 0 < d.
Proof.
  intros HR Hr Hlo Hhi. pose proof (Rabs_pos (Rs - rm)).
  unfold Rabs in Hlo. destruct (Rcase_abs (Rs - rm)); lra.
Qed.

Lemma raw_area1_exact (Rs rm d : R) :
  0 < Rs -> 0 < rm -> Rabs (Rs - rm) < d -> d <= Rs + rm ->
  raw_area1 (Fin Rs) (Fin rm) (Fin d) = Fin (lens Rs rm d).
Proof.
  intros HR Hr Hlo Hhi.
  assert (Hd : 0 < d) by (pose proof (Rabs_pos (Rs - rm)); lra).
  assert (HP : 0 <= heron Rs rm d) by (apply heron_nonneg; lra).
  assert (HP' : 0 <= heron rm Rs d) by now rewrite heron_sym.
  unfold raw_area1.
  rewrite acos_arg_moon_exact, acos_arg_sun_exact, radicand_exact, half_exact by assumption.
  cbn -[xarccos xsqrt]. rewrite !xarccos_fin by (apply cosarg_range_closed; assumption).
  rewrite xsqrt_fin by assumption. reflexivity.
Qed.

Lemma area_intersect1_exact (Rs rm d : R) :
  0 <= Rs -> 0 <= rm -> 0 <= d ->
  area_intersect1 (Fin Rs) (Fin rm) (Fin d) = Fin (overlap Rs rm d).
Proof.
  intros HR Hr Hd.
  assert (Habs : Rabs (Rs - rm) <= Rs + rm).
  { unfold Rabs. destruct (Rcase_abs (Rs - rm)); lra. }
  unfold area_intersect1, overlap, tf_partial1, tf_total1, tf_annular1, tf_none1, inset1, gtb.
  cbn. change (Rs + - rm) with (Rs - rm).
  destruct (Rlt_dec (Rs + rm) d) as [Hn|Hn].
  - rewrite (Rleb_false d (Rs + rm)) by lra.
    rewrite (Rleb_false d (Rabs (Rs - rm))) by lra. reflexivity.
  - rewrite (Rleb_true d (Rs + rm)) by lra.
    destruct (Rle_dec d (Rabs (Rs - rm))) as [Hi|Hi].
    + rewrite (Rleb_true d (Rabs (Rs - rm))) by lra.
      destruct (Rlt_le_dec rm Rs) as [Hlt|Hle].
      * rewrite (Rltb_true rm Rs), (Rleb_false Rs rm) by lra. cbn.
        unfold annular_area1, sq. cbn. f_equal. ring.
      * rewrite (Rltb_false rm Rs), (Rleb_true Rs rm) by lra. reflexivity.
    + rewrite (Rleb_false d (Rabs (Rs - rm))) by lra. cbn.
      destruct (partial_range_positive Rs rm d) as (HR' & Hr' & Hd'); try lra.
      apply raw_area1_exact; lra.
Qed.

(** ** Bounds and monotonicity of the stored area *)

Lemma disk_area_nonneg (x : R) : 0 <= PI * (x * x).
Proof. apply Rmult_le_pos; [left; exact PI_RGT_0 | nra]. Qed.

Lemma disk_area_mono (x y : R) : 0 <= x <= y -> PI * (x * x) <= PI * (y * y).
Proof. intros H. apply Rmult_le_compat_l; [left; exact PI_RGT_0 | nra]. Qed.

Lemma overlap_nonneg (Rs rm d : R) : 0 <= Rs -> 0 <= rm -> 0 <= d -> 0 <= overlap Rs rm d.
Proof.
  intros HR Hr Hd. unfold overlap.
  destruct (Rlt_dec (Rs + rm) d); [lra|].
  destruct (Rle_dec d (Rabs (Rs - rm))); [apply disk_area_nonneg|].
  destruct (partial_range_positive Rs rm d) as (HR' & Hr' & Hd'); try lra.
  apply lens_nonneg; lra.
Qed.

Lemma lens_le_moon (Rs rm d : R) :
  0 < Rs -> 0 < rm -> Rabs (Rs - rm) < d -> d <= Rs + rm -> lens Rs rm d <= PI * (rm * rm).
Proof.
  intros HR Hr Hlo Hhi.
  apply Rle_trans with (1 := lens_le_min Rs rm d HR Hr Hlo Hhi).
  unfold Rmin. destruct (Rle_dec Rs rm); apply disk_area_mono; lra.
Qed.

Lemma lens_le_sun (Rs rm d : R) :
  0 < Rs -> 0 < rm -> Rabs (Rs - rm) < d -> d <= Rs + rm -> lens Rs rm d <= PI * (Rs * Rs).
Proof.
  intros HR Hr Hlo Hhi.
  apply Rle_trans with (1 := lens_le_min Rs rm d HR Hr Hlo Hhi).
  unfold Rmin. destruct (Rle_dec Rs rm); apply disk_area_mono; lra.
Qed.

Lemma overlap_le_max (Rs rm d : R) : 0 <= Rs -> 0 <= rm -> 0 <= d ->
  overlap Rs rm d <= PI * (Rmax Rs rm * Rmax Rs rm).
Proof.
  intros HR Hr Hd.
  assert (Hm : PI * (rm * rm) <= PI * (Rmax Rs rm * Rmax Rs rm)).
  { apply disk_area_mono. pose proof (Rmax_r Rs rm). lra. }
  unfold overlap.
  destruct (Rlt_dec (Rs + rm) d); [apply disk_area_nonneg|].
  destruct (Rle_dec d (Rabs (Rs - rm))); [exact Hm|].
  destruct (partial_range_positive Rs rm d) as (HR' & Hr' & Hd'); try lra.
  apply Rle_trans with (PI * (rm * rm)); [apply lens_le_moon; lra | exact Hm].
Qed.

Lemma overlap_decreasing (Rs rm d1 d2 : R) :
  0 <= Rs -> 0 <= rm -> 0 <= d1 -> d1 <= d2 -> overlap Rs rm d2 <= overlap Rs rm d1.
Proof.
  intros HR Hr Hd1 Hd.
  destruct (Rle_lt_or_eq_dec _ _ Hd) as [Hlt| ->]; [|lra].
  pose proof (overlap_nonneg Rs rm d1 HR Hr Hd1) as Hnn.
  unfold overlap in *.
  destruct (Rlt_dec (Rs + rm) d2) as [H2|H2]; [exact Hnn|].
  destruct (Rlt_dec (Rs + rm) d1) as [H1|H1]; [lra|].
  destruct (Rle_dec d2 (Rabs (Rs - rm))) as [I2|I2].
  - destruct (Rle_dec d1 (Rabs (Rs - rm))) as [I1|I1]; [lra | lra].
  - destruct (partial_range_positive Rs rm d2) as (HR' & Hr' & Hd'); try lra.
    destruct (Rle_dec d1 (Rabs (Rs - rm))) as [I1|I1].
    + apply lens_le_moon; lra.
    + pose proof (Rabs_pos (Rs - rm)). apply lens_decreasing; lra.
Qed.

(** * The kernel in binary64 *)

Lemma SFeqb_refl_nan (s : spec_float) : SFeqb s s = false -> s = S754_nan.
Proof.
  destruct s as [b|b| |b m e]; unfold SFeqb; simpl; try discriminate; try reflexivity.
  - destruct b; discriminate.
  - rewrite Z.compare_refl, Pos.compare_cont_refl. destruct b; discriminate.
Qed.

Lemma is_nan_Prim2SF (x : float) : PrimFloat.is_nan x = true <-> Prim2SF x = S754_nan.
Proof.
  unfold PrimFloat.is_nan. rewrite FloatAxioms.eqb_spec. split.
  - intros H. apply SFeqb_refl_nan. now destruct (SFeqb _ _).
  - intros ->. reflexivity.
Qed.

Lemma sub_nan_r (x y : float) : PrimFloat.is_nan y = true -> PrimFloat.is_nan (x - y)%float = true.
Proof.
  rewrite !is_nan_Prim2SF, sub_spec. intros ->. unfold SF64sub, SFsub.
  now destruct (Prim2SF x).
Qed.

Lemma sub_nan_l (x y : float) : PrimFloat.is_nan x = true -> PrimFloat.is_nan (x - y)%float = true.
Proof.
  rewrite !is_nan_Prim2SF, sub_spec. intros ->. reflexivity.
Qed.

Lemma add_nan_l (x y : float) : PrimFloat.is_nan x = true -> PrimFloat.is_nan (x + y)%float = true.
Proof.
  rewrite !is_nan_Prim2SF, add_spec. intros ->. reflexivity.
Qed.

Lemma mul_nan_r (x y : float) : PrimFloat.is_nan y = true -> PrimFloat.is_nan (x * y)%float = true.
Proof.
  rewrite !is_nan_Prim2SF, mul_spec. intros ->. unfold SF64mul, SFmul.
  now destruct (Prim2SF x).
Qed.

(** The decimal literals used below, as binary64 numbers. *)
Lemma b64_decimal_values :
  b64_decimal 1 2 = 0x1.47ae147ae147bp-7%float
  /\ b64_decimal 2 2 = 0x1.47ae147ae147bp-6%float
  /\ b64_decimal 3 2 = 0x1.eb851eb851eb8p-6%float
  /\ b64_decimal 4 2 = 0x1.47ae147ae147bp-5%float.
Proof. repeat split; vm_compute; reflexivity. Qed.

(** With [r_sun = 0.01], [r_moon = 0.03] and [d = 0.04] the sum
    [r_sun + r_moon] is rounded to the very number [0.04], so the test
    [d <= r_sun + r_moon] holds and the element is handed to [raw_area].
    There [-d + r] is rounded to [-0.010000000000000002] and the factor
    [-d + r + R] comes out as [-2^-59] instead of 0: the radicand is
    negative, and the square root, and with it the area, is NaN whatever
    [arccos] returns. *)
Lemma radicand_negative_binary64 (libm_acos : float -> float) :
  @tf_partial1 float (binary64 libm_acos) (b64_decimal 1 2) (b64_decimal 3 2) (b64_decimal 4 2)
  = true
  /\ PrimFloat.ltb
       (@radicand float (binary64 libm_acos) (b64_decimal 1 2) (b64_decimal 3 2) (b64_decimal 4 2))
       0%float = true.
Proof. split; vm_compute; reflexivity. Qed.

Lemma area_intersect1_nan_binary64 (libm_acos : float -> float) :
  PrimFloat.is_nan
    (@area_intersect1 float (binary64 libm_acos)
       (b64_decimal 1 2) (b64_decimal 3 2) (b64_decimal 4 2)) = true.
Proof.
  unfold area_intersect1.
  rewrite (proj1 (radicand_negative_binary64 libm_acos)).
  unfold raw_area1. apply sub_nan_r. vm_compute. reflexivity.
Qed.

(** * The orchestrator in exact arithmetic *)

(** The angular radius, in degrees, of a body of radius [radius] seen from
    the distance [dist]. *)
Lemma angular_radius_exact (radius dist : R) : dist <> 0 ->
  to_degree (Fin radius / Fin dist * arcmin_per_radian)%ar
  = Fin (radius / dist * (10800 / PI) / 60).
Proof.
  intros Hd. pose proof PI_RGT_0 as Hpi.
  assert (Hpi0 : PI <> 0) by lra.
  unfold to_degree, arcmin_per_radian. cbn -[xdiv].
  rewrite (xdiv_fin radius dist Hd), (xdiv_fin 10800 PI Hpi0). cbn -[xdiv].
  rewrite xdiv_fin by lra. reflexivity.
Qed.

Lemma angular_radius_pos (radius dist : R) : 0 < radius -> 0 < dist ->
  0 < radius / dist * (10800 / PI) / 60.
Proof.
  intros Hr Hd. pose proof PI_RGT_0 as Hpi.
  apply Rdiv_lt_0_compat; [|lra].
  apply Rmult_lt_0_compat; apply Rdiv_lt_0_compat; lra.
Qed.

Lemma r_sun_deg1_exact (alt sep : xreal) (Ds Dm : R) : 0 < Ds ->
  r_sun_deg1 {| sun_alt := alt; sun_distance := Fin Ds; moon_distance := Fin Dm;
                separation := sep |} = Fin (sun_deg Ds).
Proof.
  intros H. unfold r_sun_deg1, R_sun. cbn [sun_distance of_Z xreal_arith].
  apply angular_radius_exact. lra.
Qed.

Lemma r_moon_deg1_exact (alt sep : xreal) (Ds Dm : R) : 0 < Dm ->
  r_moon_deg1 {| sun_alt := alt; sun_distance := Fin Ds; moon_distance := Fin Dm;
                 separation := sep |} = Fin (moon_deg Dm).
Proof.
  intros H. unfold r_moon_deg1, R_moon. cbn [moon_distance of_Z xreal_arith fdiv].
  rewrite xdiv_fin by lra. apply angular_radius_exact. lra.
Qed.

Lemma sun_deg_pos (Ds : R) : 0 < Ds -> 0 < sun_deg Ds.
Proof. intros H. apply angular_radius_pos; lra. Qed.

Lemma moon_deg_pos (Dm : R) : 0 < Dm -> 0 < moon_deg Dm.
Proof. intros H. apply angular_radius_pos; lra. Qed.

(** The obscuration before the horizon cutoff, for finite positive
    distances and a finite non-negative separation. *)
Lemma geometric_obscuration1_exact (alt : xreal) (Ds Dm sep : R) :
  0 < Ds -> 0 < Dm -> 0 <= sep ->
  geometric_obscuration1 {| sun_alt := alt; sun_distance := Fin Ds; moon_distance := Fin Dm;
                            separation := Fin sep |}
  = Fin (overlap (sun_deg Ds) (moon_deg Dm) sep / (PI * (sun_deg Ds * sun_deg Ds))).
Proof.
  intros Hs Hm Hsep. unfold geometric_obscuration1.
  rewrite r_sun_deg1_exact, r_moon_deg1_exact by assumption.
  cbn [separation].
  pose proof (sun_deg_pos Ds Hs). pose proof (moon_deg_pos Dm Hm).
  rewrite area_intersect1_exact by lra.
  cbn -[xdiv]. apply xdiv_fin.
  pose proof PI_RGT_0. apply Rgt_not_eq. unfold Rgt.
  apply Rmult_lt_0_compat; [lra|]. apply Rmult_lt_0_compat; assumption.
Qed.

(** * The geometry kernel: what holds and what does not *)

Lemma overlap_inset (Rs rm d : R) :
  0 <= Rs -> 0 <= rm -> 0 <= d -> d <= Rabs (Rs - rm) -> overlap Rs rm d = PI * (rm * rm).
Proof.
  intros HR Hr Hd Hi. unfold overlap.
  assert (Habs : Rabs (Rs - rm) <= Rs + rm).
  { unfold Rabs. destruct (Rcase_abs (Rs - rm)); lra. }
  destruct (Rlt_dec (Rs + rm) d); [lra|].
  destruct (Rle_dec d (Rabs (Rs - rm))); [reflexivity | contradiction].
Qed.

Lemma overlap_disjoint (Rs rm d : R) : Rs + rm < d -> overlap Rs rm d = 0.
Proof. intros H. unfold overlap. destruct (Rlt_dec (Rs + rm) d); [reflexivity | contradiction]. Qed.

Lemma overlap_touching (Rs rm : R) : 0 < Rs -> 0 <= rm -> overlap Rs rm (Rs + rm) = 0.
Proof.
  intros HR Hr. unfold overlap.
  destruct (Rlt_dec (Rs + rm) (Rs + rm)); [lra|].
  destruct (Rle_dec (Rs + rm) (Rabs (Rs - rm))) as [Hi|Hi].
  - assert (rm = 0) as ->.
    { unfold Rabs in Hi. destruct (Rcase_abs (Rs - rm)); lra. }
    ring.
  - apply lens_at_sum; [exact HR|].
    destruct (Req_dec rm 0) as [->|Hn]; [|lra].
    exfalso. apply Hi. rewrite Rabs_right; lra.
Qed.

Lemma area_intersect_scalar_exact (Rs rm d : R) :
  0 <= Rs -> 0 <= rm -> 0 <= d ->
  area_intersect (Scalar (Fin Rs)) (Scalar (Fin rm)) (Scalar (Fin d))
  = Return [Fin (overlap Rs rm d)].
Proof.
  intros HR Hr Hd. rewrite area_intersect_scalar. now rewrite area_intersect1_exact.
Qed.

(** The masks of [area_intersect] on finite non-negative operands. *)
Lemma tf_partial1_exact (Rs rm d : R) :
  0 <= Rs -> 0 <= rm -> 0 <= d ->
  tf_partial1 (Fin Rs) (Fin rm) (Fin d) = true -> Rabs (Rs - rm) < d /\ d <= Rs + rm.
Proof.
  intros HR Hr Hd. unfold tf_partial1, tf_total1, tf_annular1, tf_none1, inset1, gtb.
  cbn. change (Rs + - rm) with (Rs - rm).
  destruct (Rle_dec d (Rs + rm)) as [H1|H1].
  - destruct (Rlt_dec (Rabs (Rs - rm)) d) as [H2|H2]; [intros _; lra|].
    rewrite (Rleb_true d (Rabs (Rs - rm))) by lra.
    destruct (Rlt_le_dec rm Rs).
    + rewrite (Rltb_true rm Rs) by lra. rewrite (Rleb_true d (Rs + rm)) by lra. discriminate.
    + rewrite (Rleb_true Rs rm) by lra. rewrite (Rleb_true d (Rs + rm)) by lra.
      rewrite (Rltb_false rm Rs) by lra. discriminate.
  - rewrite (Rleb_false d (Rs + rm)) by lra. discriminate.
Qed.

Lemma tf_partial1_true (Rs rm d : R) :
  Rabs (Rs - rm) < d -> d <= Rs + rm -> tf_partial1 (Fin Rs) (Fin rm) (Fin d) = true.
Proof.
  intros Hlo Hhi. unfold tf_partial1, tf_total1, tf_annular1, tf_none1, inset1, gtb.
  cbn. change (Rs + - rm) with (Rs - rm).
  now rewrite (Rleb_true d (Rs + rm)), (Rleb_false d (Rabs (Rs - rm))).
Qed.

Lemma tf_total1_true (Rs rm d : R) :
  d <= Rabs (Rs - rm) -> Rs <= rm -> tf_total1 (Fin Rs) (Fin rm) (Fin d) = true.
Proof.
  intros Hi Hle. unfold tf_total1, inset1. cbn. change (Rs + - rm) with (Rs - rm).
  now rewrite !Rleb_true.
Qed.

Lemma tf_annular1_true (Rs rm d : R) :
  d <= Rabs (Rs - rm) -> rm < Rs -> tf_annular1 (Fin Rs) (Fin rm) (Fin d) = true.
Proof.
  intros Hi Hlt. unfold tf_annular1, inset1, gtb. cbn. change (Rs + - rm) with (Rs - rm).
  now rewrite Rleb_true, Rltb_true.
Qed.

(** Inside the containment range the partial mask is off and one of the
    two containment stores is the last one made. *)
Lemma area_intersect1_inset (Rs rm d : R) :
  d <= Rabs (Rs - rm) -> area_intersect1 (Fin Rs) (Fin rm) (Fin d) = Fin (PI * (rm * rm)).
Proof.
  intros Hi. unfold area_intersect1, tf_partial1.
  destruct (Rlt_le_dec rm Rs) as [Hlt|Hle].
  - rewrite (tf_annular1_true Rs rm d Hi Hlt).
    rewrite orb_true_r. cbn [orb negb].
    assert (Ht : tf_total1 (Fin Rs) (Fin rm) (Fin d) = false).
    { unfold tf_total1. cbn. rewrite (Rleb_false Rs rm) by lra. apply andb_false_r. }
    rewrite Ht. unfold annular_area1, sq. cbn. f_equal. ring.
  - rewrite (tf_total1_true Rs rm d Hi Hle).
    rewrite orb_true_r. reflexivity.
Qed.



(** The first half of C4, and its second half away from a point-like Sun:
    disjoint disks give 0, and so do touching disks when [r_sun > 0]. *)
Lemma disjoint_area_zero (Rs rm d : R) :
  0 <= Rs -> 0 <= rm -> Rs + rm < d ->
  area_intersect (Scalar (Fin Rs)) (Scalar (Fin rm)) (Scalar (Fin d)) = Return [Fin 0].
Proof.
  intros HR Hr Hd. rewrite area_intersect_scalar_exact by lra. now rewrite overlap_disjoint.
Qed.

Lemma touching_area_zero (Rs rm : R) :
  0 < Rs -> 0 <= rm ->
  area_intersect (Scalar (Fin Rs)) (Scalar (Fin rm)) (Scalar (Fin (Rs + rm))) = Return [Fin 0].
Proof.
  intros HR Hr. rewrite area_intersect_scalar_exact by lra. now rewrite overlap_touching.
Qed.

Lemma touching_unit_disks :
  area_intersect (Scalar (Fin 1)) (Scalar (Fin 1)) (Scalar (Fin 2)) = Return [Fin 0]
  /\ tf_partial1 (Fin 1) (Fin 1) (Fin 2) = true.
Proof.
  split.
  - replace 2 with (1 + 1) by lra. apply touching_area_zero; lra.
  - apply tf_partial1_true; [|lra].
    replace (1 - 1) with 0 by ring. rewrite Rabs_R0. lra.
Qed.

(** C4: a point-like Sun on the rim of the Moon's disk, [d = r_sun + r_moon]
    with [r_sun = 0] and [r_moon = 1].  The two disks share no area, yet the
    element falls in the Total branch and the whole lunar disk is stored. *)
Theorem touching_point_sun_reports_moon_disk :
  area_intersect (Scalar (Fin 0)) (Scalar (Fin 1)) (Scalar (Fin (0 + 1)))
  = Return [Fin (PI * (1 * 1))]
  /\ tf_total1 (Fin 0) (Fin 1) (Fin (0 + 1)) = true
  /\ PI * (1 * 1) <> 0.
Proof.
  split; [|split].
  - rewrite area_intersect_scalar_exact by lra.
    rewrite overlap_inset; [reflexivity | lra | lra | lra |].
    rewrite Rabs_left; lra.
  - apply tf_total1_true; [|lra]. rewrite Rabs_left; lra.
  - pose proof PI_RGT_0. lra.
Qed.

(** The same branch with a Sun of radius 1 inside a Moon of radius 2: the
    area common to the two disks is [pi], the stored one is [4 * pi]. *)
Lemma total_branch_stores_moon_disk :
  area_intersect (Scalar (Fin 1)) (Scalar (Fin 2)) (Scalar (Fin 0))
  = Return [Fin (PI * (2 * 2))]
  /\ tf_total1 (Fin 1) (Fin 2) (Fin 0) = true.
Proof.
  assert (Hi : 0 <= Rabs (1 - 2)) by apply Rabs_pos.
  split.
  - rewrite area_intersect_scalar. now rewrite area_intersect1_inset.
  - apply tf_total1_true; [exact Hi | lra].
Qed.

(** C5, as far as it holds: in exact arithmetic, for fixed non-negative
    radii the stored area does not increase with the separation, whichever
    branches the two separations fall in. *)
Theorem area_intersect_nonincreasing (Rs rm d1 d2 : R) :
  0 <= Rs -> 0 <= rm -> 0 <= d1 -> d1 <= d2 ->
  exists a1 a2 : R,
    area_intersect (Scalar (Fin Rs)) (Scalar (Fin rm)) (Scalar (Fin d1)) = Return [Fin a1]
    /\ area_intersect (Scalar (Fin Rs)) (Scalar (Fin rm)) (Scalar (Fin d2)) = Return [Fin a2]
    /\ a2 <= a1.
Proof.
  intros HR Hr Hd1 Hd.
  exists (overlap Rs rm d1), (overlap Rs rm d2).
  rewrite !area_intersect_scalar_exact by lra.
  repeat split. now apply overlap_decreasing.
Qed.

Lemma area_intersect_nonincreasing_witness :
  exists a1 a2 : R,
    area_intersect (Scalar (Fin 2)) (Scalar (Fin 1)) (Scalar (Fin (3 / 2))) = Return [Fin a1]
    /\ area_intersect (Scalar (Fin 2)) (Scalar (Fin 1)) (Scalar (Fin (5 / 2))) = Return [Fin a2]
    /\ a2 <= a1.
Proof. apply (area_intersect_nonincreasing 2 1 (3 / 2) (5 / 2)); lra. Defined.

Lemma map3_exact (Rs Rm Ds : list R) :
  Forall (Rle 0) Rs -> Forall (Rle 0) Rm -> Forall (Rle 0) Ds ->
  map3 area_intersect1 (map Fin Rs) (map Fin Rm) (map Fin Ds)
  = map Fin (map3 overlap Rs Rm Ds).
Proof.
  unfold map3. revert Rm Ds.
  induction Rs as [|x Rs IH]; intros [|y Rm] [|z Ds] HR Hm Hd; try reflexivity.
  inversion HR; inversion Hm; inversion Hd; subst. simpl.
  rewrite area_intersect1_exact by assumption. f_equal. now apply IH.
Qed.

Lemma map3_length {A B C D : Type} (f : A -> B -> C -> D)
  (xs : list A) (ys : list B) (zs : list C) :
  length ys = length xs -> length zs = length xs -> length (map3 f xs ys zs) = length xs.
Proof. intros H1 H2. unfold map3. rewrite length_map. now apply zip3_length. Qed.

Lemma map3_nth {A B C D : Type} (f : A -> B -> C -> D)
  (xs : list A) (ys : list B) (zs : list C) (a : A) (b : B) (c : C) (d : D) (i : nat) :
  length ys = length xs -> length zs = length xs -> (i < length xs)%nat ->
  nth i (map3 f xs ys zs) d = f (nth i xs a) (nth i ys b) (nth i zs c).
Proof.
  unfold map3. revert ys zs i.
  induction xs as [|x xs IH]; intros [|y ys] [|z zs] i H1 H2 Hi; simpl in *;
    try discriminate; try lia.
  destruct i as [|i]; [reflexivity|]. apply IH; lia.
Qed.

Lemma Forall_nth_nonneg (l : list R) (i : nat) : Forall (Rle 0) l -> 0 <= nth i l 0.
Proof.
  intros H. revert i. induction H as [|x l Hx _ IH]; intros [|i]; simpl; try lra. apply IH.
Qed.

(** C2, as far as it holds: every element is claimed by one of the four
    masks, whatever the arithmetic; and in exact arithmetic, for arrays of
    one length with finite non-negative entries, every stored area is
    finite and lies between 0 and [pi * max(r_sun, r_moon)^2]. *)
Theorem area_intersect_exact_bounds :
  (forall (F : Type) (AF : Arith F) (r_sun r_moon d : F),
      tf_none1 r_sun r_moon d || tf_annular1 r_sun r_moon d
      || tf_total1 r_sun r_moon d || tf_partial1 r_sun r_moon d = true)
  /\ (forall Rs Rm Ds : list R,
        length Rm = length Rs -> length Ds = length Rs ->
        Forall (Rle 0) Rs -> Forall (Rle 0) Rm -> Forall (Rle 0) Ds ->
        exists A : list R,
          area_intersect (Seq (map Fin Rs)) (Seq (map Fin Rm)) (Seq (map Fin Ds))
          = Return (map Fin A)
          /\ length A = length Rs
          /\ forall i : nat,
              (i < length Rs)%nat ->
              0 <= nth i A 0
              <= PI * (Rmax (nth i Rs 0) (nth i Rm 0) * Rmax (nth i Rs 0) (nth i Rm 0))).
Proof.
  split.
  - intros F AF r_sun r_moon d. apply masks_cover.
  - intros Rs Rm Ds H1 H2 HR Hm Hd.
    exists (map3 overlap Rs Rm Ds). split; [|split].
    + rewrite area_intersect_elementwise by (rewrite !length_map; assumption).
      now rewrite map3_exact.
    + now apply map3_length.
    + intros i Hi. rewrite (map3_nth overlap Rs Rm Ds 0 0 0 0 i H1 H2 Hi).
      pose proof (Forall_nth_nonneg Rs i HR). pose proof (Forall_nth_nonneg Rm i Hm).
      pose proof (Forall_nth_nonneg Ds i Hd).
      split; [apply overlap_nonneg | apply overlap_le_max]; assumption.
Qed.

Lemma area_intersect_exact_bounds_witness :
  exists A : list R,
    area_intersect (Seq (map Fin [1; 2; 1])) (Seq (map Fin [1; 1; 3])) (Seq (map Fin [1; 4; 1]))
    = Return (map Fin A)
    /\ length A = length [1; 2; 1]
    /\ forall i : nat,
        (i < length [1; 2; 1])%nat ->
        0 <= nth i A 0
        <= PI * (Rmax (nth i [1; 2; 1] 0) (nth i [1; 1; 3] 0)
                 * Rmax (nth i [1; 2; 1] 0) (nth i [1; 1; 3] 0)).
Proof.
  apply (proj2 area_intersect_exact_bounds [1; 2; 1] [1; 1; 3] [1; 4; 1]);
    try reflexivity; repeat constructor; lra.
Defined.

(** The touching disks of radii 1/100 and 3/100 in exact arithmetic: the
    area is 0. *)
Lemma touching_hundredths_exact :
  area_intersect (Scalar (Fin (1 / 100))) (Scalar (Fin (3 / 100))) (Scalar (Fin (4 / 100)))
  = Return [Fin 0].
Proof.
  replace (4 / 100) with (1 / 100 + 3 / 100) by lra. apply touching_area_zero; lra.
Qed.

(** C2 as stated fails on the machine: the binary64 numbers [0.01], [0.03]
    and [0.04] are finite and non-negative, the element is in the partial
    branch, and the stored area is NaN for every [arccos], because the
    radicand is rounded to a negative number. *)
Lemma area_intersect_nan_binary64 :
  PrimFloat.leb 0 (b64_decimal 1 2) && PrimFloat.leb 0 (b64_decimal 3 2)
  && PrimFloat.leb 0 (b64_decimal 4 2) = true
  /\ forall libm_acos : float -> float,
      exists a : float,
        @area_intersect float (binary64 libm_acos)
          (Scalar (b64_decimal 1 2)) (Scalar (b64_decimal 3 2)) (Scalar (b64_decimal 4 2))
        = Return [a]
        /\ PrimFloat.is_nan a = true.
Proof.
  split; [vm_compute; reflexivity|].
  intros libm_acos. eexists. split; [apply area_intersect_scalar|].
  apply area_intersect1_nan_binary64.
Qed.

(** C10, as far as it holds: [raw_area1] hands the two quotients to
    [arccos] as they are, and in exact arithmetic the branch filtering is
    enough: on finite non-negative operands in the partial branch both
    quotients are finite and within [-1, 1], the radicand is not negative,
    and the area is finite. *)
Theorem acos_arguments_in_range_exact (Rs rm d : R) :
  0 <= Rs -> 0 <= rm -> 0 <= d ->
  tf_partial1 (Fin Rs) (Fin rm) (Fin d) = true ->
  exists x y a : R,
    acos_arg_moon (Fin Rs) (Fin rm) (Fin d) = Fin x
    /\ acos_arg_sun (Fin Rs) (Fin rm) (Fin d) = Fin y
    /\ -1 <= x <= 1 /\ -1 <= y <= 1
    /\ 0 <= heron Rs rm d
    /\ np_arccos (Fin x) = Fin (acos x) /\ np_arccos (Fin y) = Fin (acos y)
    /\ raw_area1 (Fin Rs) (Fin rm) (Fin d) = Fin a
    /\ area_intersect (Scalar (Fin Rs)) (Scalar (Fin rm)) (Scalar (Fin d)) = Return [Fin a].
Proof.
  intros HR Hr Hd Htf.
  destruct (tf_partial1_exact Rs rm d HR Hr Hd Htf) as [Hlo Hhi].
  destruct (partial_range_positive Rs rm d HR Hr Hlo Hhi) as (HR' & Hr' & Hd').
  assert (HP : 0 <= heron Rs rm d) by (apply heron_nonneg; lra).
  assert (HP' : 0 <= heron rm Rs d) by now rewrite heron_sym.
  pose proof (cosarg_range_closed rm Rs d Hd' Hr' HP) as Hx.
  pose proof (cosarg_range_closed Rs rm d Hd' HR' HP') as Hy.
  exists (cosarg rm Rs d), (cosarg Rs rm d), (lens Rs rm d).
  repeat split; try lra.
  - now apply acos_arg_moon_exact.
  - now apply acos_arg_sun_exact.
  - now apply xarccos_fin.
  - now apply xarccos_fin.
  - apply raw_area1_exact; assumption.
  - rewrite area_intersect_scalar. unfold area_intersect1. rewrite Htf.
    f_equal. f_equal. apply raw_area1_exact; assumption.
Qed.

Lemma acos_arguments_in_range_exact_witness :
  exists x y a : R,
    acos_arg_moon (Fin 1) (Fin 1) (Fin 1) = Fin x
    /\ acos_arg_sun (Fin 1) (Fin 1) (Fin 1) = Fin y
    /\ -1 <= x <= 1 /\ -1 <= y <= 1
    /\ 0 <= heron 1 1 1
    /\ np_arccos (Fin x) = Fin (acos x) /\ np_arccos (Fin y) = Fin (acos y)
    /\ raw_area1 (Fin 1) (Fin 1) (Fin 1) = Fin a
    /\ area_intersect (Scalar (Fin 1)) (Scalar (Fin 1)) (Scalar (Fin 1)) = Return [Fin a].
Proof.
  apply (acos_arguments_in_range_exact 1 1 1); try lra.
  apply tf_partial1_true; [|lra].
  replace (1 - 1) with 0 by ring. rewrite Rabs_R0. lra.
Defined.

(** C10 as stated fails on the machine: with the binary64 numbers
    [r_sun = 0.02], [r_moon = 0.01] and [d = 0.03] the element is in the
    partial branch, the quotient for the Moon's angle,
    [0.0006000000000000001 / 0.0006], is [1.0000000000000002], the next
    number above 1, and it reaches [arccos] unclamped; the radicand is
    positive, so the NaN that [arccos] answers outside its domain is what
    makes the area NaN. *)
Lemma acos_argument_above_one_binary64 :
  exists x : float,
    PrimFloat.ltb 1 x = true
    /\ forall libm_acos : float -> float,
        @tf_partial1 float (binary64 libm_acos)
          (b64_decimal 2 2) (b64_decimal 1 2) (b64_decimal 3 2) = true
        /\ @acos_arg_moon float (binary64 libm_acos)
             (b64_decimal 2 2) (b64_decimal 1 2) (b64_decimal 3 2) = x
        /\ PrimFloat.ltb 0 (@radicand float (binary64 libm_acos)
                              (b64_decimal 2 2) (b64_decimal 1 2) (b64_decimal 3 2)) = true
        /\ (PrimFloat.is_nan (libm_acos x) = true ->
            exists a : float,
              @area_intersect float (binary64 libm_acos)
                (Scalar (b64_decimal 2 2)) (Scalar (b64_decimal 1 2)) (Scalar (b64_decimal 3 2))
              = Return [a]
              /\ PrimFloat.is_nan a = true).
Proof.
  exists 0x1.0000000000001p+0%float. split; [vm_compute; reflexivity|].
  intros libm_acos.
  assert (Htf : @tf_partial1 float (binary64 libm_acos)
                  (b64_decimal 2 2) (b64_decimal 1 2) (b64_decimal 3 2) = true)
    by (vm_compute; reflexivity).
  assert (Harg : @acos_arg_moon float (binary64 libm_acos)
                   (b64_decimal 2 2) (b64_decimal 1 2) (b64_decimal 3 2)
                 = 0x1.0000000000001p+0%float)
    by (vm_compute; reflexivity).
  split; [exact Htf|]. split; [exact Harg|]. split; [vm_compute; reflexivity|].
  intros Hnan. eexists. split; [apply area_intersect_scalar|].
  unfold area_intersect1. rewrite Htf. unfold raw_area1.
  apply sub_nan_l, add_nan_l, mul_nan_r. rewrite Harg. exact Hnan.
Qed.


(** C5 as stated fails on the machine.  With the binary64 numbers
    [r_sun = 0.04], [r_moon = 0.05] the separation [d = 0.09] passes the
    test [d <= r_sun + r_moon] and is handed to [raw_area]; both quotients
    are exactly 1, so with [arccos 1 = 0] the two sectors vanish, while the
    radicand is rounded to a positive number: the area is negative, about
    [-5e-11].  At the larger separation [d = 0.10] the disks are disjoint
    and the area is 0: it has gone up. *)
Lemma area_increases_binary64 :
  exists a : float,
    PrimFloat.ltb a 0 = true
    /\ PrimFloat.ltb (b64_decimal 9 2) (b64_decimal 10 2) = true
    /\ forall libm_acos : float -> float,
        @tf_partial1 float (binary64 libm_acos)
          (b64_decimal 4 2) (b64_decimal 5 2) (b64_decimal 9 2) = true
        /\ @acos_arg_moon float (binary64 libm_acos)
             (b64_decimal 4 2) (b64_decimal 5 2) (b64_decimal 9 2) = 1%float
        /\ @acos_arg_sun float (binary64 libm_acos)
             (b64_decimal 4 2) (b64_decimal 5 2) (b64_decimal 9 2) = 1%float
        /\ @area_intersect float (binary64 libm_acos)
             (Scalar (b64_decimal 4 2)) (Scalar (b64_decimal 5 2)) (Scalar (b64_decimal 10 2))
           = Return [PrimFloat.zero]
        /\ (libm_acos 1%float = PrimFloat.zero ->
            @area_intersect float (binary64 libm_acos)
              (Scalar (b64_decimal 4 2)) (Scalar (b64_decimal 5 2)) (Scalar (b64_decimal 9 2))
            = Return [a]).
Proof.
  exists (-0x1.b7a0fc8146974p-35)%float.
  split; [vm_compute; reflexivity|]. split; [vm_compute; reflexivity|].
  intros libm_acos.
  assert (Htf : @tf_partial1 float (binary64 libm_acos)
                  (b64_decimal 4 2) (b64_decimal 5 2) (b64_decimal 9 2) = true)
    by (vm_compute; reflexivity).
  assert (Hm : @acos_arg_moon float (binary64 libm_acos)
                 (b64_decimal 4 2) (b64_decimal 5 2) (b64_decimal 9 2) = 1%float)
    by (vm_compute; reflexivity).
  assert (Hs : @acos_arg_sun float (binary64 libm_acos)
                 (b64_decimal 4 2) (b64_decimal 5 2) (b64_decimal 9 2) = 1%float)
    by (vm_compute; reflexivity).
  split; [exact Htf|]. split; [exact Hm|]. split; [exact Hs|]. split.
  - rewrite area_intersect_scalar. vm_compute. reflexivity.
  - intros Hacos. rewrite area_intersect_scalar. unfold area_intersect1.
    rewrite Htf. unfold raw_area1. rewrite Hm, Hs.
    cbn [np_arccos binary64]. rewrite Hacos. vm_compute. reflexivity.
Qed.

(** * The orchestrator: what holds and what does not *)

Lemma nth_error_zip_with {A B C : Type} (f : A -> B -> C) (xs : list A) (ys : list B)
  (i : nat) (x : A) (y : B) :
  nth_error xs i = Some x -> nth_error ys i = Some y ->
  nth_error (zip_with f xs ys) i = Some (f x y).
Proof.
  revert ys i. induction xs as [|x0 xs IH]; intros [|y0 ys] [|i]; simpl; try discriminate.
  - intros [= ->] [= ->]. reflexivity.
  - apply IH.
Qed.

Section OrchestratorClaims.

Context {F : Type} {AF : Arith F}.
Variable Time : Type.
Variable ephemeris : Time -> F -> F -> F -> sample F.

(** Element [i] of the batch is astropy's answer for element [i] of the
    conformed inputs. *)
Lemma batch_of_nth (date_time : pyval Time) (lat lon height : pyval F)
  (i : nat) (t : Time) (lo la he : F) :
  let n := length (array date_time) in
  nth_error (array date_time) i = Some t ->
  nth_error (conformed (array lon) n) i = Some lo ->
  nth_error (conformed (array lat) n) i = Some la ->
  nth_error (conformed (array height) n) i = Some he ->
  nth_error (batch_of ephemeris date_time lat lon height) i = Some (ephemeris t lo la he).
Proof.
  intros n Ht Hlo Hla Hhe. unfold batch_of, ephemeris_batch. fold n.
  apply (nth_error_zip_with (fun g h => g h)); [|exact Hhe].
  apply (nth_error_zip_with (fun g la => g la)); [|exact Hla].
  now apply nth_error_zip_with.
Qed.

Lemma calculate_obscuration_returns
  (date_time : pyval Time) (lat lon height : pyval F)
  (return_dict : bool) (min_solar_elev_deg : F) :
  array date_time <> [] ->
  array lat <> [] -> array lon <> [] -> array height <> [] ->
  exists res : result F,
    calculate_obscuration ephemeris date_time lat lon height return_dict min_solar_elev_deg
    = Return res
    /\ obsc_of res
       = squeeze (map (obscuration1 min_solar_elev_deg)
                    (batch_of ephemeris date_time lat lon height)).
Proof.
  intros Hdt Hlat Hlon Hh. eexists. split; [now apply calculate_obscuration_elementwise|].
  cbv zeta. destruct return_dict; reflexivity.
Qed.

(** C6: in a batch of one element or more, an element whose solar
    altitude is below [min_solar_elev_deg] is returned as exactly 0; every
    other element keeps the value of the area of intersection divided by
    the area of the solar disk. *)
Theorem horizon_cutoff
  (date_time : pyval Time) (lat lon height : pyval F)
  (return_dict : bool) (min_solar_elev_deg : F) :
  array date_time <> [] ->
  array lat <> [] -> array lon <> [] -> array height <> [] ->
  exists res : result F,
    calculate_obscuration ephemeris date_time lat lon height return_dict min_solar_elev_deg
    = Return res
    /\ length (array (obsc_of res)) = length (array date_time)
    /\ forall (i : nat) (s : sample F),
        nth_error (batch_of ephemeris date_time lat lon height) i = Some s ->
        ((sun_alt s <? min_solar_elev_deg)%ar = true ->
         nth_error (array (obsc_of res)) i = Some zero)
        /\ ((sun_alt s <? min_solar_elev_deg)%ar = false ->
            nth_error (array (obsc_of res)) i = Some (geometric_obscuration1 s)).
Proof.
  intros Hdt Hlat Hlon Hh.
  destruct (calculate_obscuration_returns date_time lat lon height return_dict
              min_solar_elev_deg Hdt Hlat Hlon Hh) as (res & Hres & E).
  exists res. split; [exact Hres|]. rewrite E, array_squeeze. split.
  - rewrite length_map. apply batch_of_length.
  - intros i s Hs. rewrite nth_error_map, Hs. cbn. unfold obscuration1.
    split; intros ->; reflexivity.
Qed.

(** C9, as the code has it: an empty [date_time] is refused, by [Time],
    with a [ValueError]; a batch of one element, be it a scalar input or a
    sequence of length 1, gives a scalar; a longer one gives a sequence of
    the length of [date_time].  Either way element [i] is computed from
    element [i] of the inputs. *)
Theorem result_shape
  (date_time : pyval Time) (lat lon height : pyval F)
  (return_dict : bool) (min_solar_elev_deg : F) :
  array lat <> [] -> array lon <> [] -> array height <> [] ->
  (array date_time = [] ->
   calculate_obscuration ephemeris date_time lat lon height return_dict min_solar_elev_deg
   = Raise ValueError)
  /\ (array date_time <> [] ->
      exists res : result F,
        calculate_obscuration ephemeris date_time lat lon height return_dict
          min_solar_elev_deg = Return res
        /\ (length (array date_time) = 1%nat -> exists x : F, obsc_of res = Scalar x)
        /\ (length (array date_time) <> 1%nat ->
            exists obs : list F,
              obsc_of res = Seq obs /\ length obs = length (array date_time))
        /\ forall (i : nat) (t : Time) (lo la he : F),
            nth_error (array date_time) i = Some t ->
            nth_error (conformed (array lon) (length (array date_time))) i = Some lo ->
            nth_error (conformed (array lat) (length (array date_time))) i = Some la ->
            nth_error (conformed (array height) (length (array date_time))) i = Some he ->
            nth_error (array (obsc_of res)) i
            = Some (obscuration1 min_solar_elev_deg (ephemeris t lo la he))).
Proof.
  intros Hlat Hlon Hh. split; [apply calculate_obscuration_empty|]. intros Hdt.
  destruct (calculate_obscuration_returns date_time lat lon height return_dict
              min_solar_elev_deg Hdt Hlat Hlon Hh) as (res & Hres & E).
  exists res. split; [exact Hres|].
  set (aa := batch_of ephemeris date_time lat lon height) in *.
  pose proof (batch_of_length Time ephemeris date_time lat lon height) as Hlen. fold aa in Hlen.
  set (obs := map (obscuration1 min_solar_elev_deg) aa) in *.
  assert (Hobs : length obs = length (array date_time))
    by (unfold obs; now rewrite length_map).
  rewrite E. split; [|split].
  - intros H1. rewrite <- Hobs in H1.
    destruct obs as [|x [|y obs']]; try discriminate. now exists x.
  - intros H1. rewrite <- Hobs in H1. exists obs. split; [|exact Hobs].
    destruct obs as [|x [|y obs']]; try reflexivity. now contradiction H1.
  - intros i t lo la he Ht Hlo Hla Hhe. rewrite array_squeeze. unfold obs.
    rewrite nth_error_map.
    unfold aa. now rewrite (batch_of_nth date_time lat lon height i t lo la he Ht Hlo Hla Hhe).
Qed.

(** C8, as the code has it, for numeric fields.  [conform] keeps a field
    of the length of its reference and replaces any other non-empty field,
    longer ones included, by that many copies of [1.0] times its first
    element; on an empty field it raises an [IndexError].  In
    [calculate_obscuration] the reference of [lat], [lon] and [height] is
    [date_time]: with a non-empty [date_time] the call raises that
    [IndexError] when one of the three is empty, and otherwise returns one
    value per time, the value at position [i] being computed from time [i]
    and element [i] of the three conformed fields; no length is rejected.
    An empty [date_time] is refused with a [ValueError]. *)
Theorem conform_to_date_time :
  (forall (B : Type) (arr_0 : list F) (arr_1 : list B),
      arr_0 <> [] ->
      exists r : list F,
        conform arr_0 arr_1 = Return r
        /\ r = conformed arr_0 (length arr_1)
        /\ length r = length arr_1
        /\ (length arr_0 = length arr_1 -> r = arr_0)
        /\ (length arr_0 <> length arr_1 ->
            r = repeat (one * hd np_nan arr_0)%ar (length arr_1)))
  /\ (forall (B : Type) (arr_1 : list B),
        arr_1 <> [] -> conform (F := F) [] arr_1 = Raise IndexError)
  /\ (forall (date_time : pyval Time) (lat lon height : pyval F)
             (return_dict : bool) (min_solar_elev_deg : F),
        (array date_time = [] ->
         calculate_obscuration ephemeris date_time lat lon height return_dict
           min_solar_elev_deg = Raise ValueError)
        /\ (array date_time <> [] ->
            array lat = [] \/ array lon = [] \/ array height = [] ->
            calculate_obscuration ephemeris date_time lat lon height return_dict
              min_solar_elev_deg = Raise IndexError)
        /\ (array date_time <> [] ->
            array lat <> [] -> array lon <> [] -> array height <> [] ->
            exists res : result F,
              calculate_obscuration ephemeris date_time lat lon height return_dict
                min_solar_elev_deg = Return res
              /\ length (array (obsc_of res)) = length (array date_time)
              /\ forall (i : nat) (t : Time) (lo la he : F),
                  nth_error (array date_time) i = Some t ->
                  nth_error (conformed (array lon) (length (array date_time))) i = Some lo ->
                  nth_error (conformed (array lat) (length (array date_time))) i = Some la ->
                  nth_error (conformed (array height) (length (array date_time))) i
                  = Some he ->
                  nth_error (array (obsc_of res)) i
                  = Some (obscuration1 min_solar_elev_deg (ephemeris t lo la he)))).
Proof.
  split; [|split].
  - intros B arr_0 arr_1 H0. exists (conformed arr_0 (length arr_1)).
    split; [now apply conform_nonempty|]. split; [reflexivity|].
    split; [apply conformed_length|].
    unfold conformed. split; intros H.
    + now rewrite (proj2 (Nat.eqb_eq _ _) H).
    + now rewrite (proj2 (Nat.eqb_neq _ _) H).
  - intros B arr_1 H1. now apply conform_empty.
  - intros date_time lat lon height return_dict m. split; [|split].
    + apply calculate_obscuration_empty.
    + apply calculate_obscuration_empty_field.
    + intros Hdt Hlat Hlon Hh.
      destruct (calculate_obscuration_returns date_time lat lon height return_dict m
                  Hdt Hlat Hlon Hh) as (res & Hres & E).
      exists res. split; [exact Hres|].
      rewrite E, array_squeeze, length_map. split; [apply batch_of_length|].
      intros i t lo la he Ht Hlo Hla Hhe. rewrite nth_error_map.
      now rewrite (batch_of_nth date_time lat lon height i t lo la he Ht Hlo Hla Hhe).
Qed.


End OrchestratorClaims.

(** ** Concrete calls *)

Lemma sun_smaller_than_moon_in_totality : 0 < sun_deg 149600000 < moon_deg 370000.
Proof.
  pose proof (sun_deg_pos 149600000 ltac:(lra)) as Hs. split; [exact Hs|].
  unfold sun_deg, moon_deg.
  assert (Hc : 0 < 10800 / PI) by (apply Rdiv_lt_0_compat; [lra | exact PI_RGT_0]).
  assert (Hab : 695700 / 149600000 < 17371 / 10 / 370000) by lra.
  apply Rmult_lt_compat_r; [lra|]. apply Rmult_lt_compat_r; assumption.
Qed.

(** C1: mid-totality over an observer with the Sun 45 degrees up.  The
    Moon's disk is the larger one and covers the Sun's; the element falls in
    the Total branch, which stores the area of the Moon's disk, and the
    returned obscuration is [(r_moon / r_sun)^2], more than 1. *)
Theorem obscuration_exceeds_one_in_totality :
  exists x : R,
    calculate_obscuration (constant_ephemeris totality_sample)
      (Scalar 0%nat) (Scalar (Fin 40)) (Scalar (Fin (-100))) (Scalar (Fin 0)) false (Fin 0)
    = Return (Obsc (Scalar (Fin x)))
    /\ x = (moon_deg 370000 / sun_deg 149600000) * (moon_deg 370000 / sun_deg 149600000)
    /\ 1 < x.
Proof.
  destruct sun_smaller_than_moon_in_totality as [Hs Hm].
  pose proof PI_RGT_0 as Hpi.
  exists (overlap (sun_deg 149600000) (moon_deg 370000) 0
          / (PI * (sun_deg 149600000 * sun_deg 149600000))).
  assert (Hov : overlap (sun_deg 149600000) (moon_deg 370000) 0
                = PI * (moon_deg 370000 * moon_deg 370000)).
  { apply overlap_inset; try lra. apply Rabs_pos. }
  split; [|split].
  - rewrite calculate_obscuration_elementwise by discriminate.
    unfold batch_of, conformed, ephemeris_batch, constant_ephemeris.
    cbn [array length Nat.eqb zip_with map squeeze].
    unfold obscuration1. cbn [sun_alt totality_sample flt xreal_arith xlt].
    rewrite (Rltb_false 45 0) by lra.
    unfold totality_sample. rewrite geometric_obscuration1_exact by lra. reflexivity.
  - rewrite Hov. field. lra.
  - rewrite Hov. apply Rmult_lt_reg_r with (PI * (sun_deg 149600000 * sun_deg 149600000)).
    + apply Rmult_lt_0_compat; [lra|]. apply Rmult_lt_0_compat; lra.
    + unfold Rdiv. rewrite Rmult_assoc, Rinv_l.
      * rewrite Rmult_1_l, Rmult_1_r. apply Rmult_lt_compat_l; [lra|].
        apply Rmult_le_0_lt_compat; lra.
      * apply Rgt_not_eq. unfold Rgt. apply Rmult_lt_0_compat; [lra|].
        apply Rmult_lt_0_compat; lra.
Qed.

(** Outside that configuration the obscuration is a fraction: with a Sun
    of positive angular radius, and the Moon's disk either not the larger
    one or not covering the Sun's, the value before the horizon cutoff lies
    between 0 and 1. *)
Lemma obscuration_unit_interval (Rs rm d : R) :
  0 < Rs -> 0 <= rm -> 0 <= d -> rm <= Rs \/ rm - Rs < d ->
  0 <= overlap Rs rm d / (PI * (Rs * Rs)) <= 1.
Proof.
  intros HR Hr Hd Hcase. pose proof PI_RGT_0 as Hpi.
  assert (Hden : 0 < PI * (Rs * Rs)).
  { apply Rmult_lt_0_compat; [lra|]. apply Rmult_lt_0_compat; lra. }
  assert (Hle : overlap Rs rm d <= PI * (Rs * Rs)).
  { unfold overlap. destruct (Rlt_dec (Rs + rm) d); [lra|].
    destruct (Rle_dec d (Rabs (Rs - rm))) as [Hi|Hi].
    - destruct (Rle_lt_dec rm Rs) as [Hc|Hc].
      + apply disk_area_mono; lra.
      + exfalso. rewrite Rabs_left in Hi by lra. lra.
    - destruct (partial_range_positive Rs rm d) as (HR' & Hr' & Hd'); try lra.
      apply lens_le_sun; lra. }
  pose proof (overlap_nonneg Rs rm d ltac:(lra) Hr Hd) as Hnn.
  split.
  - apply Rmult_le_pos; [exact Hnn|]. left. now apply Rinv_0_lt_compat.
  - apply (Rmult_le_reg_r (PI * (Rs * Rs))); [exact Hden|].
    unfold Rdiv. rewrite Rmult_assoc, Rinv_l by lra. lra.
Qed.

Lemma horizon_cutoff_witness :
  exists res : result xreal,
    calculate_obscuration (constant_ephemeris night_sample)
      (Seq [0%nat; 1%nat]) (Scalar (Fin 40)) (Scalar (Fin (-100))) (Scalar (Fin 0))
      false (Fin 0) = Return res
    /\ length (array (obsc_of res)) = length (array (Seq [0%nat; 1%nat]))
    /\ forall (i : nat) (s : sample xreal),
        nth_error (batch_of (constant_ephemeris night_sample) (Seq [0%nat; 1%nat])
                     (Scalar (Fin 40)) (Scalar (Fin (-100))) (Scalar (Fin 0))) i = Some s ->
        ((sun_alt s <? Fin 0)%ar = true ->
         nth_error (array (obsc_of res)) i = Some zero)
        /\ ((sun_alt s <? Fin 0)%ar = false ->
            nth_error (array (obsc_of res)) i = Some (geometric_obscuration1 s)).
Proof.
  apply (@horizon_cutoff xreal xreal_arith nat (constant_ephemeris night_sample));
    discriminate.
Defined.

(** C9 as stated fails for a sequence of length 1: the result is a
    scalar, not a sequence of length 1. *)
Lemma length_one_sequence_returns_scalar :
  exists x : xreal,
    calculate_obscuration (constant_ephemeris totality_sample)
      (Seq [0%nat]) (Seq [Fin 40]) (Seq [Fin (-100)]) (Seq [Fin 0]) false (Fin 0)
    = Return (Obsc (Scalar x)).
Proof.
  eexists. rewrite calculate_obscuration_elementwise by discriminate. reflexivity.
Qed.

Lemma result_shape_witness :
  calculate_obscuration (constant_ephemeris totality_sample)
    (Seq []) (Scalar (Fin 40)) (Scalar (Fin (-100))) (Scalar (Fin 0)) false (Fin 0)
  = Raise ValueError
  /\ exists res : result xreal,
      calculate_obscuration (constant_ephemeris totality_sample)
        (Seq [0%nat; 1%nat; 2%nat]) (Scalar (Fin 40)) (Scalar (Fin (-100))) (Scalar (Fin 0))
        false (Fin 0) = Return res
      /\ (length (array (Seq [0%nat; 1%nat; 2%nat])) = 1%nat ->
          exists x : xreal, obsc_of res = Scalar x)
      /\ (length (array (Seq [0%nat; 1%nat; 2%nat])) <> 1%nat ->
          exists obs : list xreal,
            obsc_of res = Seq obs /\ length obs = length (array (Seq [0%nat; 1%nat; 2%nat])))
      /\ forall (i : nat) (t : nat) (lo la he : xreal),
          nth_error (array (Seq [0%nat; 1%nat; 2%nat])) i = Some t ->
          nth_error (conformed (array (Scalar (Fin (-100))))
                       (length (array (Seq [0%nat; 1%nat; 2%nat])))) i = Some lo ->
          nth_error (conformed (array (Scalar (Fin 40)))
                       (length (array (Seq [0%nat; 1%nat; 2%nat])))) i = Some la ->
          nth_error (conformed (array (Scalar (Fin 0)))
                       (length (array (Seq [0%nat; 1%nat; 2%nat])))) i = Some he ->
          nth_error (array (obsc_of res)) i
          = Some (obscuration1 (Fin 0) (constant_ephemeris totality_sample t lo la he)).
Proof.
  split.
  - apply (@result_shape xreal xreal_arith nat (constant_ephemeris totality_sample)
             (Seq []) (Scalar (Fin 40)) (Scalar (Fin (-100))) (Scalar (Fin 0)) false (Fin 0));
      [discriminate | discriminate | discriminate | reflexivity].
  - apply (@result_shape xreal xreal_arith nat (constant_ephemeris totality_sample)
             (Seq [0%nat; 1%nat; 2%nat]) (Scalar (Fin 40)) (Scalar (Fin (-100)))
             (Scalar (Fin 0)) false (Fin 0));
      discriminate.
Defined.

(** C8 as stated fails: three latitudes against two times are not
    rejected; the call returns two values, both computed for the first
    latitude.  Nor is the longest input the reference: against a single
    time the three latitudes shrink to one. *)
Lemma longer_field_silently_truncated :
  conform [Fin 10; Fin 20; Fin 30] [0%nat; 1%nat] = Return [Fin 10; Fin 10]
  /\ ~ raises (calculate_obscuration echo_ephemeris
                 (Seq [0%nat; 1%nat]) (Seq [Fin 10; Fin 20; Fin 30]) (Scalar (Fin (-100)))
                 (Scalar (Fin 0)) true (Fin 0))
  /\ (exists obs : pyval xreal,
        calculate_obscuration echo_ephemeris
          (Seq [0%nat; 1%nat]) (Seq [Fin 10; Fin 20; Fin 30]) (Scalar (Fin (-100)))
          (Scalar (Fin 0)) true (Fin 0)
        = Return (Dict obs [Fin 0; Fin 0] [Fin 10; Fin 10]))
  /\ (exists obs : xreal,
        calculate_obscuration echo_ephemeris
          (Scalar 0%nat) (Seq [Fin 10; Fin 20; Fin 30]) (Scalar (Fin (-100)))
          (Scalar (Fin 0)) true (Fin 0)
        = Return (Dict (Scalar obs) [Fin 0] [Fin 10])).
Proof.
  assert (E : Fin (1 * 10) = Fin 10) by (f_equal; lra).
  split; [|split; [|split]].
  - cbn. now rewrite E.
  - eapply returned_not_raised. now apply calculate_obscuration_elementwise.
  - eexists. rewrite calculate_obscuration_elementwise by discriminate.
    cbn -[obscuration1]. rewrite E. reflexivity.
  - eexists. rewrite calculate_obscuration_elementwise by discriminate.
    cbn -[obscuration1]. rewrite E. reflexivity.
Qed.

Lemma conform_to_date_time_witness :
  (exists r : list xreal,
      conform [Fin 10; Fin 20; Fin 30] [0%nat; 1%nat] = Return r
      /\ r = conformed [Fin 10; Fin 20; Fin 30] (length [0%nat; 1%nat])
      /\ length r = length [0%nat; 1%nat]
      /\ (length [Fin 10; Fin 20; Fin 30] = length [0%nat; 1%nat] ->
          r = [Fin 10; Fin 20; Fin 30])
      /\ (length [Fin 10; Fin 20; Fin 30] <> length [0%nat; 1%nat] ->
          r = repeat (one * hd np_nan [Fin 10; Fin 20; Fin 30])%ar (length [0%nat; 1%nat])))
  /\ conform (F := xreal) [] [0%nat; 1%nat] = Raise IndexError
  /\ calculate_obscuration echo_ephemeris
       (Seq []) (Seq [Fin 10; Fin 20; Fin 30]) (Scalar (Fin (-100))) (Scalar (Fin 0))
       false (Fin 0) = Raise ValueError
  /\ calculate_obscuration echo_ephemeris
       (Seq [0%nat; 1%nat]) (Seq [Fin 10; Fin 20; Fin 30]) (Seq []) (Scalar (Fin 0))
       false (Fin 0) = Raise IndexError
  /\ (exists res : result xreal,
        calculate_obscuration echo_ephemeris
          (Seq [0%nat; 1%nat]) (Seq [Fin 10; Fin 20; Fin 30]) (Scalar (Fin (-100)))
          (Scalar (Fin 0)) false (Fin 0) = Return res
        /\ length (array (obsc_of res)) = length (array (Seq [0%nat; 1%nat]))
        /\ forall (i : nat) (t : nat) (lo la he : xreal),
            nth_error (array (Seq [0%nat; 1%nat])) i = Some t ->
            nth_error (conformed (array (Scalar (Fin (-100))))
                         (length (array (Seq [0%nat; 1%nat])))) i = Some lo ->
            nth_error (conformed (array (Seq [Fin 10; Fin 20; Fin 30]))
                         (length (array (Seq [0%nat; 1%nat])))) i = Some la ->
            nth_error (conformed (array (Scalar (Fin 0)))
                         (length (array (Seq [0%nat; 1%nat])))) i = Some he ->
            nth_error (array (obsc_of res)) i
            = Some (obscuration1 (Fin 0) (echo_ephemeris t lo la he))).
Proof.
  pose proof (@conform_to_date_time xreal xreal_arith nat echo_ephemeris) as (H1 & H2 & H3).
  split; [|split; [|split; [|split]]].
  - apply H1. discriminate.
  - apply H2. discriminate.
  - apply (H3 (Seq [])). reflexivity.
  - apply (H3 (Seq [0%nat; 1%nat])); [discriminate|]. right; left. reflexivity.
  - apply (H3 (Seq [0%nat; 1%nat])); discriminate.
Defined.




(** * More on the kernel *)

(** ** Shapes *)

Lemma bind_Return_inv {A B : Type} (m : outcome A) (k : A -> outcome B) (b : B) :
  bind m k = Return b -> exists a : A, m = Return a /\ k a = Return b.
Proof. destruct m as [a|e]; simpl; [intros H; now exists a | discriminate]. Qed.

Lemma broadcast_Return_length {A B C : Type} (f : A -> B -> C)
  (xs : list A) (ys : list B) (zs : list C) :
  broadcast f xs ys = Return zs ->
  (length xs = length ys /\ length zs = length xs)
  \/ (length xs = 1%nat /\ length zs = length ys)
  \/ (length ys = 1%nat /\ length zs = length xs).
Proof.
  unfold broadcast. destruct (Nat.eqb (length xs) (length ys)) eqn:E.
  - apply Nat.eqb_eq in E. intros [= <-]. left. split; [exact E|].
    apply zip_with_length. congruence.
  - destruct xs as [|x [|x' xs]].
    + destruct ys as [|y [|y' ys]]; try discriminate.
      intros [= <-]. right; right. split; reflexivity.
    + intros [= <-]. right; left. split; [reflexivity | apply length_map].
    + destruct ys as [|y [|y' ys]]; try discriminate.
      intros [= <-]. right; right. split; [reflexivity|].
      cbn [length map]. now rewrite length_map.
Qed.

Lemma getmask_Return_shape {A : Type} (xs : list A) (mask : list bool) (v : list A) :
  getmask xs mask = Return v -> length mask = length xs \/ length mask = 0%nat.
Proof.
  unfold getmask. destruct (Nat.eqb (length mask) (length xs)) eqn:E.
  - intros _. left. now apply Nat.eqb_eq.
  - destruct mask; [intros _; now right | discriminate].
Qed.

Lemma setmask_scalar_Return_shape {A : Type} (xs : list A) (mask : list bool) (v : A)
  (r : list A) :
  setmask_scalar xs mask v = Return r -> length mask = length xs \/ length mask = 0%nat.
Proof.
  unfold setmask_scalar. destruct (Nat.eqb (length mask) (length xs)) eqn:E.
  - intros _. left. now apply Nat.eqb_eq.
  - destruct mask; [intros _; now right | discriminate].
Qed.

Lemma logical_or_reduce_Return_length (a b c r : list bool) :
  logical_or_reduce a b c = Return r ->
  length b = length a /\ length c = length a /\ length r = length a.
Proof.
  unfold logical_or_reduce.
  destruct (Nat.eqb (length a) (length b)) eqn:E1; [|discriminate].
  destruct (Nat.eqb (length b) (length c)) eqn:E2; [|discriminate].
  apply Nat.eqb_eq in E1, E2. cbn [andb]. intros [= <-].
  assert (L1 : length (zip_with orb a b) = length a)
    by (apply zip_with_length; congruence).
  repeat split; try congruence. rewrite zip_with_length; congruence.
Qed.

(** The lengths with which a call of [area_intersect] can return. *)
Lemma area_intersect_Return_shape (F : Type) (AF : Arith F) (r_sun r_moon d A : list F) :
  area_intersect (Seq r_sun) (Seq r_moon) (Seq d) = Return A ->
  (length r_moon = length r_sun /\ length d = length r_sun)
  \/ ((length r_sun = 0 \/ length r_moon = 0 \/ length d = 0)
      /\ length r_sun <= 1 /\ length r_moon <= 1 /\ length d <= 1)%nat.
Proof.
  intros H. unfold area_intersect in H. cbn [array] in H.
  apply bind_Return_inv in H. destruct H as (sum & Hsum & H).
  apply bind_Return_inv in H. destruct H as (intersect & Hintersect & H).
  apply bind_Return_inv in H. destruct H as (diff & _ & H).
  apply bind_Return_inv in H. destruct H as (inset & _ & H).
  apply bind_Return_inv in H. destruct H as (A1 & Hnone & H).
  apply bind_Return_inv in H. destruct H as (sun_bigger & _ & H).
  apply bind_Return_inv in H. destruct H as (tf_annular & _ & H).
  apply bind_Return_inv in H. destruct H as (rs & _ & H).
  apply bind_Return_inv in H. destruct H as (rm & Hrm & H).
  apply bind_Return_inv in H. destruct H as (v_annular & _ & H).
  apply bind_Return_inv in H. destruct H as (A2 & _ & H).
  apply bind_Return_inv in H. destruct H as (moon_bigger & _ & H).
  apply bind_Return_inv in H. destruct H as (tf_total & _ & H).
  apply bind_Return_inv in H. destruct H as (rm' & _ & H).
  apply bind_Return_inv in H. destruct H as (A3 & _ & H).
  apply bind_Return_inv in H. destruct H as (covered & Hcov & H).
  apply bind_Return_inv in H. destruct H as (rs' & _ & H).
  apply bind_Return_inv in H. destruct H as (rm'' & _ & H).
  apply bind_Return_inv in H. destruct H as (ds & Hds & _).
  apply broadcast_Return_length in Hsum, Hintersect.
  apply setmask_scalar_Return_shape in Hnone.
  apply getmask_Return_shape in Hrm, Hds.
  apply logical_or_reduce_Return_length in Hcov.
  rewrite ?length_map, ?repeat_length in *.
  lia.
Qed.

(** With one array empty and none longer than one element every mask is
    empty, nothing is stored, and the NaN initialisation comes back. *)
Lemma area_intersect_degenerate (F : Type) (AF : Arith F) (r_sun r_moon d : list F) :
  (length r_sun = 0 \/ length r_moon = 0 \/ length d = 0)%nat ->
  (length r_sun <= 1)%nat -> (length r_moon <= 1)%nat -> (length d <= 1)%nat ->
  area_intersect (Seq r_sun) (Seq r_moon) (Seq d) = Return (repeat np_nan (length r_sun)).
Proof.
  intros H0 Hs Hm Hd.
  destruct r_sun as [|a [|a' r_sun]]; cbn [length] in *; [| |lia];
    (destruct r_moon as [|b [|b' r_moon]]; cbn [length] in *; [| |lia]);
    (destruct d as [|c [|c' d]]; cbn [length] in *; [| |lia]);
    try reflexivity; lia.
Qed.

(** X1: the shapes [area_intersect] accepts.  It returns when its three
    arrays have one and the same length, and also when one of them is empty
    and none has more than one element; on every other combination of
    lengths, a single separation against several radii included, it
    raises.  What it returns has the length of [r_sun], and unless the
    three lengths are equal it is the NaN initialisation, left as it was:
    a radius given with an empty separation comes back as [[nan]]. *)
Theorem area_intersect_shape (F : Type) (AF : Arith F) (r_sun r_moon d : list F) :
  ((exists A : list F, area_intersect (Seq r_sun) (Seq r_moon) (Seq d) = Return A)
   <-> (length r_moon = length r_sun /\ length d = length r_sun)
       \/ ((length r_sun = 0 \/ length r_moon = 0 \/ length d = 0)
           /\ length r_sun <= 1 /\ length r_moon <= 1 /\ length d <= 1)%nat)
  /\ (forall A : list F,
        area_intersect (Seq r_sun) (Seq r_moon) (Seq d) = Return A ->
        length A = length r_sun
        /\ (~ (length r_moon = length r_sun /\ length d = length r_sun) ->
            A = repeat np_nan (length r_sun)))
  /\ (raises (area_intersect (Seq r_sun) (Seq r_moon) (Seq d))
      <-> ~ ((length r_moon = length r_sun /\ length d = length r_sun)
             \/ ((length r_sun = 0 \/ length r_moon = 0 \/ length d = 0)
                 /\ length r_sun <= 1 /\ length r_moon <= 1 /\ length d <= 1)%nat)).
Proof.
  assert (Hback : (length r_moon = length r_sun /\ length d = length r_sun)
                  \/ ((length r_sun = 0 \/ length r_moon = 0 \/ length d = 0)
                      /\ length r_sun <= 1 /\ length r_moon <= 1 /\ length d <= 1)%nat ->
                  exists A : list F,
                    area_intersect (Seq r_sun) (Seq r_moon) (Seq d) = Return A).
  { intros [[H1 H2]|(H0 & Hs & Hm & Hd)]; eexists.
    - now apply area_intersect_elementwise.
    - now apply area_intersect_degenerate. }
  split; [|split].
  - split; [|exact Hback]. intros [A H]. now apply (area_intersect_Return_shape F AF _ _ _ A).
  - intros A H.
    destruct (area_intersect_Return_shape F AF _ _ _ A H) as [[H1 H2]|(H0 & Hs & Hm & Hd)].
    + rewrite area_intersect_elementwise in H by assumption. injection H as <-.
      split; [now apply map3_length|]. intros Hn. exfalso. apply Hn. now split.
    + rewrite area_intersect_degenerate in H by assumption. injection H as <-.
      split; [apply repeat_length | reflexivity].
  - split.
    + intros [e He] Hshape. destruct (Hback Hshape) as [A HA]. congruence.
    + intros Hn.
      destruct (area_intersect (Seq r_sun) (Seq r_moon) (Seq d)) as [A|e] eqn:E.
      * exfalso. apply Hn. now apply (area_intersect_Return_shape F AF _ _ _ A).
      * now exists e.
Qed.

Lemma zip3_app {A B C : Type} (xs xs' : list A) (ys ys' : list B) (zs zs' : list C) :
  length ys = length xs -> length zs = length xs ->
  zip3 (xs ++ xs') (ys ++ ys') (zs ++ zs') = zip3 xs ys zs ++ zip3 xs' ys' zs'.
Proof.
  revert ys zs. induction xs as [|x xs IH]; intros [|y ys] [|z zs] H1 H2;
    simpl in *; try discriminate; [reflexivity|].
  f_equal. apply IH; congruence.
Qed.

(** X2: the batch is worked element by element: the areas of two batches
    laid end to end are the areas of the first followed by the areas of the
    second, in any arithmetic. *)
Theorem area_intersect_app (F : Type) (AF : Arith F)
  (r_sun r_moon d r_sun' r_moon' d' : list F) :
  length r_moon = length r_sun -> length d = length r_sun ->
  length r_moon' = length r_sun' -> length d' = length r_sun' ->
  area_intersect (Seq (r_sun ++ r_sun')) (Seq (r_moon ++ r_moon')) (Seq (d ++ d'))
  = (A <- area_intersect (Seq r_sun) (Seq r_moon) (Seq d) ;;
     A' <- area_intersect (Seq r_sun') (Seq r_moon') (Seq d') ;;
     Return (A ++ A')).
Proof.
  intros H1 H2 H1' H2'.
  rewrite !area_intersect_elementwise by (rewrite ?length_app; congruence).
  cbn [bind]. unfold map3. rewrite zip3_app by assumption. now rewrite map_app.
Qed.

Lemma area_intersect_app_witness :
  area_intersect (Seq ([Fin 1] ++ [Fin 2; Fin 1])) (Seq ([Fin 1] ++ [Fin 1; Fin 3]))
    (Seq ([Fin 1] ++ [Fin 4; Fin 1]))
  = (A <- area_intersect (Seq [Fin 1]) (Seq [Fin 1]) (Seq [Fin 1]) ;;
     A' <- area_intersect (Seq [Fin 2; Fin 1]) (Seq [Fin 1; Fin 3]) (Seq [Fin 4; Fin 1]) ;;
     Return (A ++ A')).
Proof.
  apply (area_intersect_app xreal xreal_arith [Fin 1] [Fin 1] [Fin 1]
           [Fin 2; Fin 1] [Fin 1; Fin 3] [Fin 4; Fin 1]); reflexivity.
Defined.

(** ** The four configurations *)

(** X3: for finite non-negative radii and separation exactly one of the
    four masks is set, so the order of the four stores does not matter:
    disjoint when [d > r_sun + r_moon], annular when [d <= r_sun - r_moon]
    with the Sun strictly larger, total when [d <= r_moon - r_sun], partial
    in between. *)
Theorem masks_exclusive_exact (Rs rm d : R) :
  0 <= Rs -> 0 <= rm -> 0 <= d ->
  let none := tf_none1 (Fin Rs) (Fin rm) (Fin d) in
  let annular := tf_annular1 (Fin Rs) (Fin rm) (Fin d) in
  let total := tf_total1 (Fin Rs) (Fin rm) (Fin d) in
  let partial := tf_partial1 (Fin Rs) (Fin rm) (Fin d) in
  (Rs + rm < d /\ (none, annular, total, partial) = (true, false, false, false))
  \/ (rm < Rs /\ d <= Rs - rm
      /\ (none, annular, total, partial) = (false, true, false, false))
  \/ (Rs <= rm /\ d <= rm - Rs
      /\ (none, annular, total, partial) = (false, false, true, false))
  \/ (Rabs (Rs - rm) < d /\ d <= Rs + rm
      /\ (none, annular, total, partial) = (false, false, false, true)).
Proof.
  intros HR Hr Hd. cbv zeta.
  assert (Habs : Rabs (Rs - rm) <= Rs + rm).
  { unfold Rabs. destruct (Rcase_abs (Rs - rm)); lra. }
  unfold tf_partial1, tf_total1, tf_annular1, tf_none1, inset1, gtb.
  cbn. change (Rs + - rm) with (Rs - rm).
  destruct (Rlt_le_dec (Rs + rm) d) as [Hn|Hn].
  - left. split; [exact Hn|].
    rewrite (Rleb_false d (Rs + rm)), (Rleb_false d (Rabs (Rs - rm))) by lra. reflexivity.
  - right. rewrite (Rleb_true d (Rs + rm)) by lra.
    destruct (Rle_lt_dec d (Rabs (Rs - rm))) as [Hi|Hi].
    + rewrite (Rleb_true d (Rabs (Rs - rm))) by lra.
      destruct (Rlt_le_dec rm Rs) as [Hlt|Hle].
      * left. rewrite Rabs_right in Hi by lra.
        rewrite (Rltb_true rm Rs), (Rleb_false Rs rm) by lra. repeat split; lra.
      * right; left. rewrite Rabs_left1 in Hi by lra.
        rewrite (Rltb_false rm Rs), (Rleb_true Rs rm) by lra. repeat split; lra.
    + right; right. rewrite (Rleb_false d (Rabs (Rs - rm))) by lra. repeat split; lra.
Qed.

Lemma masks_exclusive_exact_witness :
  (2 + 1 < 1 / 2
   /\ (tf_none1 (Fin 2) (Fin 1) (Fin (1 / 2)), tf_annular1 (Fin 2) (Fin 1) (Fin (1 / 2)),
       tf_total1 (Fin 2) (Fin 1) (Fin (1 / 2)), tf_partial1 (Fin 2) (Fin 1) (Fin (1 / 2)))
      = (true, false, false, false))
  \/ (1 < 2 /\ 1 / 2 <= 2 - 1
      /\ (tf_none1 (Fin 2) (Fin 1) (Fin (1 / 2)), tf_annular1 (Fin 2) (Fin 1) (Fin (1 / 2)),
          tf_total1 (Fin 2) (Fin 1) (Fin (1 / 2)), tf_partial1 (Fin 2) (Fin 1) (Fin (1 / 2)))
         = (false, true, false, false))
  \/ (2 <= 1 /\ 1 / 2 <= 1 - 2
      /\ (tf_none1 (Fin 2) (Fin 1) (Fin (1 / 2)), tf_annular1 (Fin 2) (Fin 1) (Fin (1 / 2)),
          tf_total1 (Fin 2) (Fin 1) (Fin (1 / 2)), tf_partial1 (Fin 2) (Fin 1) (Fin (1 / 2)))
         = (false, false, true, false))
  \/ (Rabs (2 - 1) < 1 / 2 /\ 1 / 2 <= 2 + 1
      /\ (tf_none1 (Fin 2) (Fin 1) (Fin (1 / 2)), tf_annular1 (Fin 2) (Fin 1) (Fin (1 / 2)),
          tf_total1 (Fin 2) (Fin 1) (Fin (1 / 2)), tf_partial1 (Fin 2) (Fin 1) (Fin (1 / 2)))
         = (false, false, false, true)).
Proof. apply (masks_exclusive_exact 2 1 (1 / 2)); lra. Defined.

(** With a negative radius two masks can be set at once, and the later
    store wins: for radii -1, -1 and separation -1 the disjoint and the
    total mask are both set and the area is [pi]. *)
Lemma masks_overlap_negative_radius :
  tf_none1 (Fin (-1)) (Fin (-1)) (Fin (-1)) = true
  /\ tf_total1 (Fin (-1)) (Fin (-1)) (Fin (-1)) = true
  /\ area_intersect1 (Fin (-1)) (Fin (-1)) (Fin (-1)) = Fin (PI * (-1 * -1)).
Proof.
  assert (Hi : -1 <= Rabs (-1 - -1)) by (pose proof (Rabs_pos (-1 - -1)); lra).
  split; [|split].
  - unfold tf_none1. cbn. now rewrite (Rleb_false (-1) (-1 + -1)) by lra.
  - apply tf_total1_true; [exact Hi | lra].
  - now apply area_intersect1_inset.
Qed.

(** ** Symmetry *)

Lemma lens_sym (a b d : R) : lens a b d = lens b a d.
Proof. unfold lens. rewrite (heron_sym a b d). ring. Qed.

Lemma overlap_sym_outside_containment (a b d : R) :
  Rabs (a - b) < d -> overlap a b d = overlap b a d.
Proof.
  intros H. unfold overlap. rewrite (Rplus_comm b a), (Rabs_minus_sym b a).
  destruct (Rlt_dec (a + b) d); [reflexivity|].
  destruct (Rle_dec d (Rabs (a - b))); [lra | apply lens_sym].
Qed.

(** X4: outside containment the area does not depend on which disk is
    the Sun's: for [d > |a - b|] exchanging the radii leaves it unchanged.
    Inside containment it does: the stored area is that of the disk passed
    as the Moon's, so exchanging two different radii changes it. *)
Theorem area_intersect_exchange (a b d : R) :
  0 <= a -> 0 <= b -> 0 <= d ->
  (Rabs (a - b) < d ->
   area_intersect (Scalar (Fin a)) (Scalar (Fin b)) (Scalar (Fin d))
   = area_intersect (Scalar (Fin b)) (Scalar (Fin a)) (Scalar (Fin d)))
  /\ (d <= Rabs (a - b) -> a <> b ->
      area_intersect (Scalar (Fin a)) (Scalar (Fin b)) (Scalar (Fin d))
      <> area_intersect (Scalar (Fin b)) (Scalar (Fin a)) (Scalar (Fin d))).
Proof.
  intros Ha Hb Hd. rewrite !area_intersect_scalar_exact by assumption. split.
  - intros H. now rewrite overlap_sym_outside_containment.
  - intros Hi Hab. rewrite (overlap_inset a b d) by assumption.
    rewrite (overlap_inset b a d) by (rewrite 1?Rabs_minus_sym; assumption).
    intros [= E]. pose proof PI_RGT_0 as Hpi.
    apply Rmult_eq_reg_l in E; [|lra].
    apply Hab. nra.
Qed.

Lemma area_intersect_exchange_witness :
  area_intersect (Scalar (Fin 2)) (Scalar (Fin 1)) (Scalar (Fin 2))
  = area_intersect (Scalar (Fin 1)) (Scalar (Fin 2)) (Scalar (Fin 2))
  /\ area_intersect (Scalar (Fin 2)) (Scalar (Fin 1)) (Scalar (Fin (1 / 2)))
     <> area_intersect (Scalar (Fin 1)) (Scalar (Fin 2)) (Scalar (Fin (1 / 2))).
Proof.
  assert (E : Rabs (2 - 1) = 1) by (rewrite Rabs_right; lra).
  split.
  - apply (proj1 (area_intersect_exchange 2 1 2 ltac:(lra) ltac:(lra) ltac:(lra))). lra.
  - apply (proj2 (area_intersect_exchange 2 1 (1 / 2) ltac:(lra) ltac:(lra) ltac:(lra))); lra.
Defined.

(** ** Strict monotonicity *)

Lemma lens_strictly_decreasing (Rs rm a b : R) :
  0 < Rs -> 0 < rm -> 0 < a -> Rabs (Rs - rm) <= a -> a < b -> b <= Rs + rm ->
  lens Rs rm b < lens Rs rm a.
Proof.
  intros HR Hr Ha Hlo Hab Hhi.
  assert (Hin : forall c, a < c < b -> 0 < heron Rs rm c).
  { intros c Hc. apply heron_pos; lra. }
  assert (Hpos : forall c, a < c < b -> 0 < c) by (intros; lra).
  set (pr1 := fun c (Hc : a < c < b) =>
                exist (fun l => derivable_pt_abs (lens Rs rm) c l) _
                  (lens_deriv Rs rm c HR Hr (Hpos c Hc) (Hin c Hc))).
  destruct (MVT (lens Rs rm) id a b pr1 (fun c _ => derivable_pt_id c) Hab) as [c [Hc E]].
  - intros c Hc. apply lens_continuous; try lra. apply heron_nonneg; lra.
  - intros c Hc. apply derivable_continuous_pt, derivable_pt_id.
  - unfold pr1 in E. simpl in E. unfold id in E.
    assert (Hs : 0 < sqrt (heron Rs rm c)) by (apply sqrt_lt_R0, Hin, Hc).
    assert (Hq : 0 < sqrt (heron Rs rm c) / c).
    { apply Rdiv_lt_0_compat; lra. }
    replace (- sqrt (heron Rs rm c) / c) with (- (sqrt (heron Rs rm c) / c)) in E by (field; lra).
    change (fun x : R => x) with id in E. rewrite derive_pt_id in E.
    assert (0 < (b - a) * (sqrt (heron Rs rm c) / c)) by (apply Rmult_lt_0_compat; lra).
    lra.
Qed.

Lemma lens_pos (Rs rm d : R) :
  0 < Rs -> 0 < rm -> Rabs (Rs - rm) < d -> d < Rs + rm -> 0 < lens Rs rm d.
Proof.
  intros HR Hr Hlo Hhi. pose proof (Rabs_pos (Rs - rm)).
  rewrite <- (lens_at_sum Rs rm HR Hr). apply lens_strictly_decreasing; lra.
Qed.

Lemma lens_lt_min (Rs rm d : R) :
  0 < Rs -> 0 < rm -> Rabs (Rs - rm) < d -> d <= Rs + rm ->
  lens Rs rm d < PI * (Rmin Rs rm * Rmin Rs rm).
Proof.
  intros HR Hr Hlo Hhi.
  destruct (Rtotal_order Rs rm) as [H|[H|H]].
  - rewrite Rmin_left by lra. rewrite Rabs_left in Hlo by lra.
    rewrite <- (lens_at_diff_moon Rs rm HR H).
    apply lens_strictly_decreasing; try lra. rewrite Rabs_left by lra. lra.
  - subst rm. rewrite Rmin_left by lra.
    replace (Rs - Rs) with 0 in Hlo by ring. rewrite Rabs_R0 in Hlo.
    apply Rlt_le_trans with (lens Rs Rs (d / 2)).
    + apply lens_strictly_decreasing; try lra.
      replace (Rs - Rs) with 0 by ring. rewrite Rabs_R0. lra.
    + apply lens_equal_radii_le; lra.
  - rewrite Rmin_right by lra. rewrite Rabs_right in Hlo by lra.
    rewrite <- (lens_at_diff_sun Rs rm Hr H).
    apply lens_strictly_decreasing; try lra. rewrite Rabs_right by lra. lra.
Qed.

(** X5: while the two rims cross, for [|r_sun - r_moon| < d1 < d2 <=
    r_sun + r_moon], moving the centres apart strictly shrinks the area. *)
Theorem area_intersect_strictly_decreasing (Rs rm d1 d2 : R) :
  0 <= Rs -> 0 <= rm -> Rabs (Rs - rm) < d1 -> d1 < d2 -> d2 <= Rs + rm ->
  exists a1 a2 : R,
    area_intersect (Scalar (Fin Rs)) (Scalar (Fin rm)) (Scalar (Fin d1)) = Return [Fin a1]
    /\ area_intersect (Scalar (Fin Rs)) (Scalar (Fin rm)) (Scalar (Fin d2)) = Return [Fin a2]
    /\ a2 < a1.
Proof.
  intros HR Hr Hlo Hlt Hhi. pose proof (Rabs_pos (Rs - rm)) as Hp.
  destruct (partial_range_positive Rs rm d1) as (HR' & Hr' & Hd'); try lra.
  exists (overlap Rs rm d1), (overlap Rs rm d2).
  rewrite !area_intersect_scalar_exact by lra.
  repeat split. unfold overlap.
  destruct (Rlt_dec (Rs + rm) d1); [lra|]. destruct (Rlt_dec (Rs + rm) d2); [lra|].
  destruct (Rle_dec d1 (Rabs (Rs - rm))); [lra|].
  destruct (Rle_dec d2 (Rabs (Rs - rm))); [lra|].
  apply lens_strictly_decreasing; lra.
Qed.

Lemma area_intersect_strictly_decreasing_witness :
  exists a1 a2 : R,
    area_intersect (Scalar (Fin 2)) (Scalar (Fin 1)) (Scalar (Fin (3 / 2))) = Return [Fin a1]
    /\ area_intersect (Scalar (Fin 2)) (Scalar (Fin 1)) (Scalar (Fin 3)) = Return [Fin a2]
    /\ a2 < a1.
Proof.
  apply (area_intersect_strictly_decreasing 2 1 (3 / 2) 3); try lra.
  rewrite Rabs_right; lra.
Defined.

(** X6: for disks of positive radius the area is 0 exactly when the
    disks are disjoint or touch, [d >= r_sun + r_moon]; every closer pair
    has a positive area. *)
Theorem area_zero_iff_apart (Rs rm d : R) :
  0 < Rs -> 0 < rm -> 0 <= d ->
  exists a : R,
    area_intersect (Scalar (Fin Rs)) (Scalar (Fin rm)) (Scalar (Fin d)) = Return [Fin a]
    /\ 0 <= a
    /\ (a = 0 <-> Rs + rm <= d).
Proof.
  intros HR Hr Hd. exists (overlap Rs rm d).
  rewrite area_intersect_scalar_exact by lra.
  split; [reflexivity|]. split; [apply overlap_nonneg; lra|].
  split.
  - intros H0. destruct (Rle_lt_dec (Rs + rm) d) as [Hge|Hlt]; [exact Hge|exfalso].
    unfold overlap in H0.
    destruct (Rlt_dec (Rs + rm) d); [lra|].
    destruct (Rle_dec d (Rabs (Rs - rm))) as [Hi|Hi].
    + pose proof PI_RGT_0. assert (0 < PI * (rm * rm)).
      { apply Rmult_lt_0_compat; [lra|]. apply Rmult_lt_0_compat; lra. }
      lra.
    + pose proof (lens_pos Rs rm d HR Hr ltac:(lra) Hlt). lra.
  - intros Hge. destruct (Rle_lt_or_eq_dec _ _ Hge) as [Hlt|Heq].
    + now apply overlap_disjoint.
    + subst d. apply overlap_touching; lra.
Qed.

Lemma area_zero_iff_apart_witness :
  exists a : R,
    area_intersect (Scalar (Fin 2)) (Scalar (Fin 1)) (Scalar (Fin (5 / 2))) = Return [Fin a]
    /\ 0 <= a
    /\ (a = 0 <-> 2 + 1 <= 5 / 2).
Proof. apply (area_zero_iff_apart 2 1 (5 / 2)); lra. Defined.

(** ** NaN operands on the machine *)

Lemma add_nan_r (x y : float) : PrimFloat.is_nan y = true -> PrimFloat.is_nan (x + y)%float = true.
Proof.
  rewrite !is_nan_Prim2SF, add_spec. intros ->. unfold SF64add, SFadd.
  now destruct (Prim2SF x).
Qed.

Lemma abs_nan (x : float) : PrimFloat.is_nan x = true -> PrimFloat.is_nan (PrimFloat.abs x) = true.
Proof. rewrite !is_nan_Prim2SF, abs_spec. intros ->. reflexivity. Qed.

Lemma leb_nan_l (x y : float) : PrimFloat.is_nan x = true -> PrimFloat.leb x y = false.
Proof. rewrite is_nan_Prim2SF, leb_spec. intros ->. reflexivity. Qed.

Lemma leb_nan_r (x y : float) : PrimFloat.is_nan y = true -> PrimFloat.leb x y = false.
Proof.
  rewrite is_nan_Prim2SF, leb_spec. intros ->. unfold SFleb, SFcompare.
  now destruct (Prim2SF x).
Qed.

(** X7: a NaN among the operands is not handed on: every comparison with
    it is false, so the element counts as disjoint and the area is 0, for
    NaN radii and NaN separations alike. *)
Theorem area_intersect_nan_operand_binary64
  (libm_acos : float -> float) (r_sun r_moon d : float) :
  PrimFloat.is_nan r_sun || PrimFloat.is_nan r_moon || PrimFloat.is_nan d = true ->
  @area_intersect float (binary64 libm_acos) (Scalar r_sun) (Scalar r_moon) (Scalar d)
  = Return [PrimFloat.zero]
  /\ @tf_none1 float (binary64 libm_acos) r_sun r_moon d = true.
Proof.
  intros H.
  assert (Hsum : PrimFloat.leb d (r_sun + r_moon)%float = false).
  { destruct (PrimFloat.is_nan d) eqn:Ed; [now apply leb_nan_l|].
    apply leb_nan_r. destruct (PrimFloat.is_nan r_sun) eqn:Es; [now apply add_nan_l|].
    apply add_nan_r. now destruct (PrimFloat.is_nan r_moon). }
  assert (Hin : PrimFloat.leb d (PrimFloat.abs (r_sun - r_moon)%float) = false).
  { destruct (PrimFloat.is_nan d) eqn:Ed; [now apply leb_nan_l|].
    apply leb_nan_r, abs_nan.
    destruct (PrimFloat.is_nan r_sun) eqn:Es; [now apply sub_nan_l|].
    apply sub_nan_r. now destruct (PrimFloat.is_nan r_moon). }
  assert (Hnone : @tf_none1 float (binary64 libm_acos) r_sun r_moon d = true).
  { unfold tf_none1. cbn. now rewrite Hsum. }
  split; [|exact Hnone].
  rewrite area_intersect_scalar. do 2 f_equal.
  unfold area_intersect1, tf_partial1, tf_total1, tf_annular1, inset1.
  rewrite Hnone. cbn [fle fsub np_abs binary64]. rewrite Hin. reflexivity.
Qed.

Lemma area_intersect_nan_operand_binary64_witness :
  @area_intersect float (binary64 (fun x => x))
    (Scalar (b64_decimal 1 2)) (Scalar (b64_decimal 3 2)) (Scalar PrimFloat.nan)
  = Return [PrimFloat.zero]
  /\ @tf_none1 float (binary64 (fun x => x)) (b64_decimal 1 2) (b64_decimal 3 2) PrimFloat.nan
     = true.
Proof.
  apply (area_intersect_nan_operand_binary64 (fun x => x)
           (b64_decimal 1 2) (b64_decimal 3 2) PrimFloat.nan).
  vm_compute. reflexivity.
Defined.

(** * More on the orchestrator *)

Lemma list_eq_dec_nil {A : Type} (l : list A) : {l = []} + {l <> []}.
Proof. destruct l; [now left | now right]. Qed.

Section OrchestratorMore.

Context {F : Type} {AF : Arith F}.
Variable Time : Type.
Variable ephemeris : Time -> F -> F -> F -> sample F.

(** A call for one time and place. *)
Lemma calculate_obscuration_scalar (t : Time) (la lo he : F)
  (return_dict : bool) (min_solar_elev_deg : F) :
  calculate_obscuration ephemeris (Scalar t) (Scalar la) (Scalar lo) (Scalar he)
    return_dict min_solar_elev_deg
  = Return (let s := ephemeris t lo la he in
            let obs := Scalar (obscuration1 min_solar_elev_deg s) in
            if return_dict then Dict obs [separation s] [sun_alt s] else Obsc obs).
Proof. rewrite calculate_obscuration_elementwise by discriminate. reflexivity. Qed.

(** X8: for a batch of one element or more, with [return_dict] the entry
    ['obsc'] is what the plain call returns, and the two other entries are
    arrays with one element per element of the batch, never reduced to a
    scalar, not even for a batch of one. *)
Theorem return_dict_consistent
  (date_time : pyval Time) (lat lon height : pyval F) (min_solar_elev_deg : F) :
  array date_time <> [] ->
  array lat <> [] -> array lon <> [] -> array height <> [] ->
  exists (obs : pyval F) (sep elev : list F),
    calculate_obscuration ephemeris date_time lat lon height false min_solar_elev_deg
    = Return (Obsc obs)
    /\ calculate_obscuration ephemeris date_time lat lon height true min_solar_elev_deg
       = Return (Dict obs sep elev)
    /\ sep = map separation (batch_of ephemeris date_time lat lon height)
    /\ elev = map sun_alt (batch_of ephemeris date_time lat lon height)
    /\ length sep = length (array date_time)
    /\ length elev = length (array date_time).
Proof.
  intros Hdt Hlat Hlon Hh. do 3 eexists.
  rewrite !calculate_obscuration_elementwise by assumption. cbv zeta.
  repeat split; rewrite length_map; apply batch_of_length.
Qed.

(** X9: an empty latitude, longitude or height against a non-empty
    [date_time] makes the whole call fail with an [IndexError]. *)
Theorem empty_field_raises
  (date_time : pyval Time) (lat lon height : pyval F)
  (return_dict : bool) (min_solar_elev_deg : F) :
  array date_time <> [] ->
  array lat = [] \/ array lon = [] \/ array height = [] ->
  calculate_obscuration ephemeris date_time lat lon height return_dict min_solar_elev_deg
  = Raise IndexError.
Proof.
  intros Hdt H. unfold calculate_obscuration.
  destruct (list_eq_dec_nil (array lat)) as [El|El].
  - rewrite El, conform_empty by assumption. reflexivity.
  - rewrite (conform_nonempty (array lat) (array date_time) El). cbn [bind].
    destruct (list_eq_dec_nil (array lon)) as [Eo|Eo].
    + rewrite Eo, conform_empty by assumption. reflexivity.
    + rewrite (conform_nonempty (array lon) (array date_time) Eo). cbn [bind].
      destruct H as [H|[H|H]]; try contradiction.
      rewrite H, conform_empty by assumption. reflexivity.
Qed.

Lemma conform_same_length {B : Type} (arr_0 : list F) (arr_1 : list B) :
  length arr_0 = length arr_1 -> conform arr_0 arr_1 = Return arr_0.
Proof. intros H. unfold conform. now rewrite (proj2 (Nat.eqb_eq _ _) H). Qed.

Lemma conformed_same_length (arr_0 : list F) (n : nat) :
  length arr_0 = n -> conformed arr_0 n = arr_0.
Proof. intros H. unfold conformed. now rewrite (proj2 (Nat.eqb_eq _ _) H). Qed.

(** X10: a non-empty batch of full-length sequences gives, at every
    position, the value that the call for that single time and place
    gives. *)
Theorem batch_agrees_with_scalar_calls
  (date_time : list Time) (lat lon height : list F)
  (return_dict : bool) (min_solar_elev_deg : F) :
  date_time <> [] ->
  length lat = length date_time -> length lon = length date_time ->
  length height = length date_time ->
  exists res : result F,
    calculate_obscuration ephemeris (Seq date_time) (Seq lat) (Seq lon) (Seq height)
      return_dict min_solar_elev_deg = Return res
    /\ length (array (obsc_of res)) = length date_time
    /\ forall (i : nat) (t : Time) (la lo he : F),
        nth_error date_time i = Some t -> nth_error lat i = Some la ->
        nth_error lon i = Some lo -> nth_error height i = Some he ->
        exists (res1 : result F) (v : F),
          calculate_obscuration ephemeris (Scalar t) (Scalar la) (Scalar lo) (Scalar he)
            return_dict min_solar_elev_deg = Return res1
          /\ obsc_of res1 = Scalar v
          /\ nth_error (array (obsc_of res)) i = Some v.
Proof.
  intros Hdt Hla Hlo Hhe.
  set (aa := ephemeris_batch ephemeris date_time lon lat height).
  assert (Hcall : calculate_obscuration ephemeris (Seq date_time) (Seq lat) (Seq lon)
                    (Seq height) return_dict min_solar_elev_deg
                  = Return (let obs := squeeze (map (obscuration1 min_solar_elev_deg) aa) in
                            if return_dict then Dict obs (map separation aa) (map sun_alt aa)
                            else Obsc obs)).
  { unfold calculate_obscuration. cbn [array].
    rewrite !conform_same_length by assumption. cbn [bind].
    rewrite time_aa_nonempty by assumption. cbn [bind].
    unfold apparent_size. cbn [bind]. fold aa.
    rewrite !map_map, area_intersect_map. cbn [bind].
    rewrite broadcast_map. cbn [bind].
    rewrite setmask_scalar_map. cbn [bind]. reflexivity. }
  eexists. split; [exact Hcall|].
  assert (E : array (obsc_of (let obs := squeeze (map (obscuration1 min_solar_elev_deg) aa) in
                              if return_dict
                              then Dict obs (map separation aa) (map sun_alt aa)
                              else Obsc obs))
              = map (obscuration1 min_solar_elev_deg) aa).
  { destruct return_dict; cbn; apply array_squeeze. }
  rewrite E. split.
  - rewrite length_map. unfold aa. now apply ephemeris_batch_length.
  - intros i t la lo he Ht Hl Ho Hh.
    rewrite calculate_obscuration_scalar. do 2 eexists.
    split; [reflexivity|]. split; [destruct return_dict; reflexivity|].
    rewrite nth_error_map. unfold aa, ephemeris_batch.
    rewrite (nth_error_zip_with (fun g h => g h) _ height i (ephemeris t lo la) he);
      [reflexivity | | exact Hh].
    apply (nth_error_zip_with (fun g la => g la)); [|exact Hl].
    now apply nth_error_zip_with.
Qed.

End OrchestratorMore.

Lemma return_dict_consistent_witness :
  exists (obs : pyval xreal) (sep elev : list xreal),
    calculate_obscuration echo_ephemeris (Seq [0%nat; 1%nat]) (Seq [Fin 10; Fin 20])
      (Scalar (Fin (-100))) (Scalar (Fin 0)) false (Fin 0) = Return (Obsc obs)
    /\ calculate_obscuration echo_ephemeris (Seq [0%nat; 1%nat]) (Seq [Fin 10; Fin 20])
         (Scalar (Fin (-100))) (Scalar (Fin 0)) true (Fin 0) = Return (Dict obs sep elev)
    /\ sep = map separation
               (batch_of echo_ephemeris (Seq [0%nat; 1%nat]) (Seq [Fin 10; Fin 20])
                  (Scalar (Fin (-100))) (Scalar (Fin 0)))
    /\ elev = map sun_alt
                (batch_of echo_ephemeris (Seq [0%nat; 1%nat]) (Seq [Fin 10; Fin 20])
                   (Scalar (Fin (-100))) (Scalar (Fin 0)))
    /\ length sep = length (array (Seq [0%nat; 1%nat]))
    /\ length elev = length (array (Seq [0%nat; 1%nat])).
Proof.
  apply (@return_dict_consistent xreal xreal_arith nat echo_ephemeris); discriminate.
Defined.

Lemma empty_field_raises_witness :
  calculate_obscuration echo_ephemeris (Seq [0%nat; 1%nat]) (Seq [Fin 10; Fin 20])
    (Seq []) (Scalar (Fin 0)) false (Fin 0) = Raise IndexError.
Proof.
  apply (@empty_field_raises xreal xreal_arith nat echo_ephemeris); [discriminate|].
  right; left. reflexivity.
Defined.

Lemma batch_agrees_with_scalar_calls_witness :
  exists res : result xreal,
    calculate_obscuration echo_ephemeris (Seq [0%nat; 1%nat]) (Seq [Fin 10; Fin 20])
      (Seq [Fin 1; Fin 2]) (Seq [Fin 0; Fin 0]) false (Fin 15) = Return res
    /\ length (array (obsc_of res)) = length [0%nat; 1%nat]
    /\ forall (i : nat) (t : nat) (la lo he : xreal),
        nth_error [0%nat; 1%nat] i = Some t -> nth_error [Fin 10; Fin 20] i = Some la ->
        nth_error [Fin 1; Fin 2] i = Some lo -> nth_error [Fin 0; Fin 0] i = Some he ->
        exists (res1 : result xreal) (v : xreal),
          calculate_obscuration echo_ephemeris (Scalar t) (Scalar la) (Scalar lo) (Scalar he)
            false (Fin 15) = Return res1
          /\ obsc_of res1 = Scalar v
          /\ nth_error (array (obsc_of res)) i = Some v.
Proof.
  apply (@batch_agrees_with_scalar_calls xreal xreal_arith nat echo_ephemeris);
    [discriminate | reflexivity | reflexivity | reflexivity].
Defined.

(** ** One time and place in exact arithmetic *)

Section ExactCall.

Variable Time : Type.
Variable ephemeris : Time -> xreal -> xreal -> xreal -> sample xreal.

(** The value returned when astropy reports finite positive distances
    and a finite non-negative separation, and the Sun is not below the
    threshold. *)
Lemma calculate_obscuration_scalar_exact (t : Time) (la lo he alt m : xreal) (Ds Dm sep : R) :
  ephemeris t lo la he
  = {| sun_alt := alt; sun_distance := Fin Ds; moon_distance := Fin Dm;
       separation := Fin sep |} ->
  (alt <? m)%ar = false -> 0 < Ds -> 0 < Dm -> 0 <= sep ->
  calculate_obscuration ephemeris (Scalar t) (Scalar la) (Scalar lo) (Scalar he) false m
  = Return (Obsc (Scalar (Fin (overlap (sun_deg Ds) (moon_deg Dm) sep
                               / (PI * (sun_deg Ds * sun_deg Ds)))))).
Proof.
  intros Hs Halt HDs HDm Hsep. rewrite calculate_obscuration_scalar. cbv zeta.
  rewrite Hs. unfold obscuration1. cbn [sun_alt]. rewrite Halt.
  now rewrite geometric_obscuration1_exact.
Qed.

(** X11: as long as one disk contains the other the obscuration does not
    change with the separation and the unit conversions cancel: it is the
    square of [R_moon / moon_distance] over [R_sun / sun_distance]. *)
Theorem obscuration_in_containment (t : Time) (la lo he alt m : xreal) (Ds Dm sep : R) :
  ephemeris t lo la he
  = {| sun_alt := alt; sun_distance := Fin Ds; moon_distance := Fin Dm;
       separation := Fin sep |} ->
  (alt <? m)%ar = false -> 0 < Ds -> 0 < Dm -> 0 <= sep ->
  sep <= Rabs (sun_deg Ds - moon_deg Dm) ->
  calculate_obscuration ephemeris (Scalar t) (Scalar la) (Scalar lo) (Scalar he) false m
  = Return (Obsc (Scalar (Fin ((17371 / 10 / Dm) / (695700 / Ds)
                               * ((17371 / 10 / Dm) / (695700 / Ds)))))).
Proof.
  intros Hs Halt HDs HDm Hsep Hin.
  rewrite (calculate_obscuration_scalar_exact t la lo he alt m Ds Dm sep) by assumption.
  pose proof (sun_deg_pos Ds HDs) as Hsp. pose proof (moon_deg_pos Dm HDm) as Hmp.
  rewrite overlap_inset by lra.
  do 4 f_equal. pose proof PI_RGT_0 as Hpi. unfold sun_deg, moon_deg. field. lra.
Qed.

(** X12: unless the Moon's disk is the larger one and covers the Sun's,
    the returned obscuration is a fraction between 0 and 1. *)
Theorem obscuration_is_fraction (t : Time) (la lo he alt m : xreal) (Ds Dm sep : R) :
  ephemeris t lo la he
  = {| sun_alt := alt; sun_distance := Fin Ds; moon_distance := Fin Dm;
       separation := Fin sep |} ->
  (alt <? m)%ar = false -> 0 < Ds -> 0 < Dm -> 0 <= sep ->
  moon_deg Dm <= sun_deg Ds \/ moon_deg Dm - sun_deg Ds < sep ->
  exists x : R,
    calculate_obscuration ephemeris (Scalar t) (Scalar la) (Scalar lo) (Scalar he) false m
    = Return (Obsc (Scalar (Fin x)))
    /\ 0 <= x <= 1.
Proof.
  intros Hs Halt HDs HDm Hsep Hcase. eexists.
  split; [now apply (calculate_obscuration_scalar_exact t la lo he alt m Ds Dm sep)|].
  pose proof (sun_deg_pos Ds HDs). pose proof (moon_deg_pos Dm HDm).
  apply obscuration_unit_interval; lra.
Qed.

(** X13: during an eclipse that is not total, that is while the disks
    overlap ([sep < r_sun + r_moon]) and the Moon's does not cover the
    Sun's, the returned obscuration is strictly between 0 and 1. *)
Theorem obscuration_in_eclipse (t : Time) (la lo he alt m : xreal) (Ds Dm sep : R) :
  ephemeris t lo la he
  = {| sun_alt := alt; sun_distance := Fin Ds; moon_distance := Fin Dm;
       separation := Fin sep |} ->
  (alt <? m)%ar = false -> 0 < Ds -> 0 < Dm -> 0 <= sep ->
  sep < sun_deg Ds + moon_deg Dm ->
  moon_deg Dm < sun_deg Ds \/ moon_deg Dm - sun_deg Ds < sep ->
  exists x : R,
    calculate_obscuration ephemeris (Scalar t) (Scalar la) (Scalar lo) (Scalar he) false m
    = Return (Obsc (Scalar (Fin x)))
    /\ 0 < x < 1.
Proof.
  intros Hs Halt HDs HDm Hsep Hlt Hcase. eexists.
  split; [now apply (calculate_obscuration_scalar_exact t la lo he alt m Ds Dm sep)|].
  pose proof (sun_deg_pos Ds HDs) as Hsp. pose proof (moon_deg_pos Dm HDm) as Hmp.
  pose proof PI_RGT_0 as Hpi.
  set (Rs := sun_deg Ds) in *. set (rm := moon_deg Dm) in *.
  assert (Hden : 0 < PI * (Rs * Rs)).
  { apply Rmult_lt_0_compat; [lra|]. apply Rmult_lt_0_compat; lra. }
  assert (Hov : 0 < overlap Rs rm sep < PI * (Rs * Rs)).
  { unfold overlap. destruct (Rlt_dec (Rs + rm) sep); [lra|].
    destruct (Rle_dec sep (Rabs (Rs - rm))) as [Hi|Hi].
    - assert (Hsm : rm < Rs).
      { destruct Hcase as [Hc|Hc]; [exact Hc|].
        destruct (Rlt_le_dec rm Rs) as [Hc'|Hc']; [exact Hc'|].
        rewrite Rabs_left1 in Hi by lra. lra. }
      split.
      + apply Rmult_lt_0_compat; [lra|]. apply Rmult_lt_0_compat; lra.
      + apply Rmult_lt_compat_l; [lra|]. apply Rmult_le_0_lt_compat; lra.
    - split; [apply lens_pos; lra|].
      apply Rlt_le_trans with (PI * (Rmin Rs rm * Rmin Rs rm)).
      + apply lens_lt_min; lra.
      + apply disk_area_mono. pose proof (Rmin_l Rs rm).
        unfold Rmin in *. destruct (Rle_dec Rs rm); lra. }
  split.
  - apply Rdiv_lt_0_compat; lra.
  - apply (Rmult_lt_reg_r (PI * (Rs * Rs))); [exact Hden|].
    unfold Rdiv. rewrite Rmult_assoc, Rinv_l by lra. lra.
Qed.

End ExactCall.

(** In [annular_sample] the Moon's disk is the smaller one and lies
    inside the Sun's. *)
Lemma annular_geometry :
  moon_deg 405000 < sun_deg 149600000
  /\ 1 / 1000 <= Rabs (sun_deg 149600000 - moon_deg 405000).
Proof.
  unfold sun_deg, moon_deg. pose proof PI_RGT_0 as Hpi.
  pose proof PI_4 as H4.
  assert (Hc : 2700 <= 10800 / PI).
  { apply (Rmult_le_reg_r PI); [lra|]. unfold Rdiv. rewrite Rmult_assoc, Rinv_l by lra. lra. }
  set (c := 10800 / PI) in *.
  assert (Hd : 1 / 1000 <= 695700 / 149600000 * c / 60 - 17371 / 10 / 405000 * c / 60) by lra.
  split; [lra|]. rewrite Rabs_right; lra.
Qed.

Lemma obscuration_in_containment_witness :
  calculate_obscuration (constant_ephemeris annular_sample)
    (Scalar 0%nat) (Scalar (Fin 40)) (Scalar (Fin (-100))) (Scalar (Fin 0)) false (Fin 0)
  = Return (Obsc (Scalar (Fin ((17371 / 10 / 405000) / (695700 / 149600000)
                               * ((17371 / 10 / 405000) / (695700 / 149600000)))))).
Proof.
  apply (obscuration_in_containment nat (constant_ephemeris annular_sample)
           0%nat (Fin 40) (Fin (-100)) (Fin 0) (Fin 45) (Fin 0)
           149600000 405000 (1 / 1000)).
  - reflexivity.
  - apply Rltb_false. lra.
  - lra.
  - lra.
  - lra.
  - apply annular_geometry.
Defined.

Lemma obscuration_is_fraction_witness :
  exists x : R,
    calculate_obscuration (constant_ephemeris annular_sample)
      (Scalar 0%nat) (Scalar (Fin 40)) (Scalar (Fin (-100))) (Scalar (Fin 0)) false (Fin 0)
    = Return (Obsc (Scalar (Fin x)))
    /\ 0 <= x <= 1.
Proof.
  apply (obscuration_is_fraction nat (constant_ephemeris annular_sample)
           0%nat (Fin 40) (Fin (-100)) (Fin 0) (Fin 45) (Fin 0)
           149600000 405000 (1 / 1000)).
  - reflexivity.
  - apply Rltb_false. lra.
  - lra.
  - lra.
  - lra.
  - left. apply Rlt_le. apply annular_geometry.
Defined.

Lemma obscuration_in_eclipse_witness :
  exists x : R,
    calculate_obscuration (constant_ephemeris annular_sample)
      (Scalar 0%nat) (Scalar (Fin 40)) (Scalar (Fin (-100))) (Scalar (Fin 0)) false (Fin 0)
    = Return (Obsc (Scalar (Fin x)))
    /\ 0 < x < 1.
Proof.
  apply (obscuration_in_eclipse nat (constant_ephemeris annular_sample)
           0%nat (Fin 40) (Fin (-100)) (Fin 0) (Fin 45) (Fin 0)
           149600000 405000 (1 / 1000)).
  - reflexivity.
  - apply Rltb_false. lra.
  - lra.
  - lra.
  - lra.
  - assert (Hm : 0 < moon_deg 405000) by (apply moon_deg_pos; lra).
    assert (Hs : 0 < sun_deg 149600000) by (apply sun_deg_pos; lra).
    assert (H1 : 1 / 1000 < 1) by lra.
    destruct annular_geometry as [Hlt Habs].
    rewrite Rabs_right in Habs by lra. lra.
  - left. apply annular_geometry.
Defined.

(** ** Apparent size *)

(** X14: of two positive distances the nearer one gives the larger
    apparent radius, and both are positive. *)
Theorem apparent_size_nearer_is_larger (radius d1 d2 : R) :
  0 < radius -> 0 < d1 -> d1 < d2 ->
  exists a1 a2 : R,
    apparent_size (Fin radius) [Fin d1; Fin d2] = Return [Fin a1; Fin a2]
    /\ 0 < a2 < a1.
Proof.
  intros Hr H1 H2. pose proof PI_RGT_0 as Hpi. assert (Hpi0 : PI <> 0) by lra.
  assert (Hk : arcmin_per_radian = Fin (10800 / PI)).
  { unfold arcmin_per_radian. cbn -[xdiv]. now apply xdiv_fin. }
  assert (Hc : 0 < 10800 / PI) by (apply Rdiv_lt_0_compat; lra).
  exists (radius / d1 * (10800 / PI)), (radius / d2 * (10800 / PI)). split.
  - unfold apparent_size. cbn [map]. rewrite Hk. cbn -[xdiv].
    now rewrite !xdiv_fin by lra.
  - assert (Hq : 0 < radius / d2 < radius / d1).
    { split; [apply Rdiv_lt_0_compat; lra|].
      unfold Rdiv. apply Rmult_lt_compat_l; [lra|].
      apply Rinv_lt_contravar; [|lra]. apply Rmult_lt_0_compat; lra. }
    split; [apply Rmult_lt_0_compat; lra|].
    apply Rmult_lt_compat_r; lra.
Qed.

Lemma apparent_size_nearer_is_larger_witness :
  exists a1 a2 : R,
    apparent_size (Fin (17371 / 10)) [Fin 357000; Fin 406000] = Return [Fin a1; Fin a2]
    /\ 0 < a2 < a1.
Proof.
  apply (apparent_size_nearer_is_larger (17371 / 10) 357000 406000); lra.
Defined.
